(** * comprehensive_fix.py: the UNUSED() annotator, embedded and verified

    The script reads one file, makes sure the [UNUSED] macro is defined,
    runs seven regular-expression rewrite rules over the text with
    [re.sub], and writes the result back.

    The embedding follows the script:
    - text is a list of characters (8-bit code points; the classes [\s]
      and [\w] are those of Python's [re] on [str] for code points 0..255);
    - a regular expression is a syntax tree over the constructs the
      script's patterns use, run by a backtracking matcher with greedy
      quantifiers, ordered alternation and capture groups, as [re] does;
    - [re.search], [re.sub], [str.replace] and [in] are scanning functions
      over the text;
    - the file system and standard output are an explicit world state. *)

From Stdlib Require Import Ascii String List Arith Lia Bool.
Import ListNotations.

(** ** Text *)

Definition text := list ascii.

Definition txt (x : string) : text := list_ascii_of_string x.

Definition nl : ascii := "010"%char.
Definition dq : ascii := "034"%char.

Definition text_eq_dec : forall a b : text, {a = b} + {a <> b} :=
  list_eq_dec ascii_dec.

(** [strip_prefix w t] is [Some r] when [t = w ++ r]. *)
Fixpoint strip_prefix (w t : text) : option text :=
  match w with
  | [] => Some t
  | a :: w' =>
      match t with
      | [] => None
      | b :: t' => if Ascii.eqb a b then strip_prefix w' t' else None
      end
  end.

(** ** Character classes of [re] on [str] *)

Definition between (lo hi n : nat) : bool := (lo <=? n) && (n <=? hi).

(** [\s]: Unicode white space below 256. *)
Definition is_space (c : ascii) : bool :=
  let n := nat_of_ascii c in
  between 9 13 n || between 28 32 n || (n =? 133) || (n =? 160).

(** [\w]: alphanumeric (Unicode, below 256) or underscore. *)
Definition is_word (c : ascii) : bool :=
  let n := nat_of_ascii c in
  between 48 57 n || between 65 90 n || (n =? 95) || between 97 122 n
  || (n =? 170) || between 178 179 n || (n =? 181) || between 185 186 n
  || between 188 190 n || between 192 214 n || between 216 246 n
  || between 248 255 n.

Inductive cls : Type :=
| Space      (* \s *)
| Word       (* \w *)
| NotSemi.   (* [^;] *)

Definition in_cls (k : cls) (c : ascii) : bool :=
  match k with
  | Space => is_space c
  | Word => is_word c
  | NotSemi => negb (Ascii.eqb c ";"%char)
  end.

(** ** Regular expressions *)

Inductive regex : Type :=
| Lit (w : text)              (* a literal string *)
| Plus (k : cls)              (* k+, greedy *)
| Star (k : cls)              (* k*, greedy *)
| Cat (r1 r2 : regex)         (* r1 r2 *)
| Alt (r1 r2 : regex)         (* r1|r2, left first *)
| Grp (n : nat) (r : regex).  (* capture group number n *)

Declare Scope regex_scope.
Delimit Scope regex_scope with re.
Bind Scope regex_scope with regex.
Infix ">>" := Cat (at level 41, right associativity) : regex_scope.
Infix "<|>" := Alt (at level 51, right associativity) : regex_scope.

(** Captures: the most recent binding of a group number is first. *)
Definition caps := list (nat * text).

Fixpoint lookup (n : nat) (cs : caps) : option text :=
  match cs with
  | [] => None
  | (m, v) :: cs' => if Nat.eqb n m then Some v else lookup n cs'
  end.

(** A match object: the whole match, its capture groups. *)
Record match_obj : Type := MatchObj { group0 : text; captures : caps }.

(** [m.group(n)] for [n >= 1]; the groups of the script's patterns always
    take part in a match (lemma [match_at_groups]). *)
Definition group (n : nat) (m : match_obj) : text :=
  match lookup n (captures m) with
  | Some v => v
  | None => []
  end.

(** The answer of a successful run: the match object and the text
    after the match. *)
Definition answer : Type := match_obj * text.

(** Greedy repetition of a class: try the longest run first and give
    characters back one at a time while the continuation fails. *)
Fixpoint rep (p : ascii -> bool) (t : text)
         (k : text -> option answer) : option answer :=
  match t with
  | c :: t' =>
      if p c then
        match rep p t' k with
        | Some a => Some a
        | None => k t
        end
      else k t
  | [] => k t
  end.

(** The backtracking matcher, in continuation-passing style: [exec r t
    cs k] matches [r] at the start of [t] and hands the rest of the
    text and the captures to [k]; when [k] fails the next alternative
    of [r] is tried. *)
Fixpoint exec (r : regex) (t : text) (cs : caps)
         (k : text -> caps -> option answer) : option answer :=
  match r with
  | Lit w =>
      match strip_prefix w t with
      | Some t' => k t' cs
      | None => None
      end
  | Plus c =>
      match t with
      | a :: t' =>
          if in_cls c a then rep (in_cls c) t' (fun t'' => k t'' cs)
          else None
      | [] => None
      end
  | Star c => rep (in_cls c) t (fun t'' => k t'' cs)
  | Cat r1 r2 => exec r1 t cs (fun t1 cs1 => exec r2 t1 cs1 k)
  | Alt r1 r2 =>
      match exec r1 t cs k with
      | Some a => Some a
      | None => exec r2 t cs k
      end
  | Grp n r1 =>
      exec r1 t cs
        (fun t1 cs1 => k t1 ((n, firstn (length t - length t1) t) :: cs1))
  end.

(** [pattern.match(t)]: a match anchored at the start of [t]. *)
Definition match_at (r : regex) (t : text) : option answer :=
  exec r t []
    (fun t' cs => Some (MatchObj (firstn (length t - length t') t) cs, t')).

(** [re.search(r, t)]: the leftmost match. *)
Fixpoint search (r : regex) (t : text) : option match_obj :=
  match match_at r t with
  | Some (m, _) => Some m
  | None =>
      match t with
      | [] => None
      | _ :: t' => search r t'
      end
  end.

(** [re.sub(r, repl, t)] with a function [repl]: scan from the left;
    at a match emit [repl m] and go on after the match, in the text as
    it was; otherwise copy one character.  An empty match emits [repl m]
    and copies one character (no pattern of the script matches the
    empty string, lemma [match_at_nonempty]). *)
Fixpoint sub_fuel (fuel : nat) (r : regex) (repl : match_obj -> text)
         (t : text) : text :=
  match fuel with
  | 0 => t
  | S fuel' =>
      match match_at r t with
      | Some (m, rest) =>
          match group0 m with
          | _ :: _ => repl m ++ sub_fuel fuel' r repl rest
          | [] =>
              match t with
              | [] => repl m
              | c :: t' => repl m ++ c :: sub_fuel fuel' r repl t'
              end
          end
      | None =>
          match t with
          | [] => []
          | c :: t' => c :: sub_fuel fuel' r repl t'
          end
      end
  end.

Definition sub (r : regex) (repl : match_obj -> text) (t : text) : text :=
  sub_fuel (S (length t)) r repl t.


(** ** [str] operations *)

(** [old in t]. *)
Fixpoint contains (old t : text) : bool :=
  match strip_prefix old t with
  | Some _ => true
  | None =>
      match t with
      | [] => false
      | _ :: t' => contains old t'
      end
  end.

(** [t.replace(old, new)] for a non-empty [old]: every non-overlapping
    occurrence, from the left. *)
Fixpoint replace_fuel (fuel : nat) (old new t : text) : text :=
  match fuel with
  | 0 => t
  | S fuel' =>
      match t with
      | [] => []
      | c :: t' =>
          match strip_prefix old t with
          | Some rest => new ++ replace_fuel fuel' old new rest
          | None => c :: replace_fuel fuel' old new t'
          end
      end
  end.

Definition replace (old new t : text) : text :=
  replace_fuel (length t) old new t.

(** ** The script *)

Module Fix.

Local Open Scope regex_scope.

(** ['#define UNUSED(x)'] *)
Definition macro_def : text := txt "#define UNUSED(x)".

(** ['#include "test_ember_internal.h"'] *)
Definition anchor : text :=
  txt "#include " ++ [dq] ++ txt "test_ember_internal.h" ++ [dq].

(** The second argument of [content.replace]: the anchor line, a blank
    line, the comment line and the macro definition. *)
Definition macro_block : text :=
  [nl; nl] ++ txt "// Macro to mark variables as intentionally unused"
  ++ [nl] ++ txt "#define UNUSED(x) ((void)(x))".

Definition anchor_with_macro : text := anchor ++ macro_block.

(** Lines 12-14: add the macro if it is not present. *)
Definition ensure_marker_present (content : text) : text :=
  if negb (contains macro_def content)
  then replace anchor anchor_with_macro content
  else content.

Definition sp1 : regex := Plus Space.      (* \s+ *)
Definition sp0 : regex := Star Space.      (* \s* *)
Definition w1 : regex := Plus Word.        (* \w+ *)
Definition ns1 : regex := Plus NotSemi.    (* [^;]+ *)
Definition L (x : string) : regex := Lit (txt x).

(** Lines 18-26, in the order of the list. *)
Definition patterns : list regex :=
  [ Grp 1 sp1 >> Grp 2 (L "ember_value" >> sp1 >> w1 >> sp0 >> L "=" >> sp0 >> ns1 >> L ";");
    Grp 1 sp1 >> Grp 2 (L "const" >> sp1 >> L "char*" >> sp1 >> w1 >> sp0 >> L "=" >> sp0 >> ns1 >> L ";");
    Grp 1 sp1 >> Grp 2 (L "ember_" >> w1 >> L "*" >> sp1 >> w1 >> sp0 >> L "=" >> sp0 >> ns1 >> L ";");
    Grp 1 sp1 >> Grp 2 (L "uint32_t" >> sp1 >> w1 >> sp0 >> L "=" >> sp0 >> ns1 >> L ";");
    Grp 1 sp1 >> Grp 2 (L "bool" >> sp1 >> w1 >> sp0 >> L "=" >> sp0 >> ns1 >> L ";");
    Grp 1 sp1 >> Grp 2 (L "EmberPackage*" >> sp1 >> w1 >> sp0 >> L "=" >> sp0 >> ns1 >> L ";");
    Grp 1 sp1 >> Grp 2 (L "int" >> sp1 >> w1 >> sp0 >> L "=" >> sp0 >> ns1 >> L ";") ].

(** Line 34: the pattern that extracts the variable name. *)
Definition name_re : regex :=
  ((L "ember_" >> w1 >> L "*") <|> (L "const" >> sp1 >> L "char*")
   <|> L "uint32_t" <|> L "bool" <|> L "EmberPackage*" <|> L "int"
   <|> L "ember_value")
  >> sp1 >> Grp 1 w1.

(** Lines 29-38: the replacement function handed to [re.sub]. *)
Definition replacement (m : match_obj) : text :=
  let indent := group 1 m in
  let assignment := group 2 m in
  match search name_re assignment with
  | Some var_match =>
      let var_name := group 1 var_match in
      indent ++ assignment ++ [nl] ++ indent
      ++ txt "UNUSED(" ++ var_name ++ txt ");"
  | None => group0 m
  end.

(** Lines 28-40: the loop over the patterns. *)
Definition apply_rules (content : text) : text :=
  fold_left (fun content pattern => sub pattern replacement content)
            patterns content.

(** Lines 11-40: what happens to the text between reading and writing. *)
Definition fix_text (content : text) : text :=
  apply_rules (ensure_marker_present content).

End Fix.

(** ** Files, standard output and the command line *)

Module IO.

(** What the process did to the file system, in order. *)
Inductive event : Type :=
| OpenRead (filename : text)
| OpenWrite (filename : text).

(** The world around one run: the text each readable file holds (as
    [f.read()] returns it; a name that [open(filename, 'r')] or the
    read refuses maps to [None]), the lines printed so far and the file
    operations so far.  Writing is taken to succeed. *)
Record world : Type :=
  World { files : text -> option text;
          stdout : list text;
          trace : list event }.

Inductive error : Type :=
| OSError (filename : text)    (* raised by [open] or [read] *)
| ProcessingError.             (* raised between reading and writing *)

Inductive result (A : Type) : Type :=
| Ok (a : A)
| Raise (e : error).
Arguments Ok {A} a.
Arguments Raise {A} e.

(** State and exceptions. *)
Definition io (A : Type) : Type := world -> result A * world.

Definition ret {A} (a : A) : io A := fun w => (Ok a, w).

Definition bind {A B} (m : io A) (f : A -> io B) : io B :=
  fun w =>
    match m w with
    | (Ok a, w') => f a w'
    | (Raise e, w') => (Raise e, w')
    end.

Notation "x <- m ;; k" := (bind m (fun x => k))
  (at level 61, m at next level, right associativity).

Definition lift {A} (r : result A) : io A := fun w => (r, w).

(** [with open(filename, 'r') as f: content = f.read()] *)
Definition read_file (filename : text) : io text :=
  fun w =>
    let w' := World (files w) (stdout w) (trace w ++ [OpenRead filename]) in
    match files w filename with
    | Some content => (Ok content, w')
    | None => (Raise (OSError filename), w')
    end.

(** [with open(filename, 'w') as f: f.write(content)] *)
Definition write_file (filename content : text) : io unit :=
  fun w =>
    (Ok tt,
     World (fun name => if text_eq_dec name filename then Some content
                        else files w name)
           (stdout w) (trace w ++ [OpenWrite filename])).

(** [print(line)] *)
Definition print (line : text) : io unit :=
  fun w => (Ok tt, World (files w) (stdout w ++ [line]) (trace w)).

Section Pipeline.

(** What lines 11-40 make of the text, or the exception they raise. *)
Variable process : text -> result text.

(** Lines 8-43 around [process]: read, compute, then write. *)
Definition rewrite_file (filename : text) : io unit :=
  content <- read_file filename ;;
  content' <- lift (process content) ;;
  write_file filename content'.

End Pipeline.

(** Lines 5-43. *)
Definition fix_all_unused_variables (filename : text) : io unit :=
  rewrite_file (fun content => Ok (Fix.fix_text content)) filename.

(** How the process ends. *)
Inductive status : Type :=
| Exit (code : nat)
| Uncaught (e : error).   (* traceback, non-zero exit status *)

Definition usage : text :=
  txt "Usage: python3 comprehensive_fix.py <filename>".

(** Lines 45-50; [argv] is [sys.argv], the script's name first. *)
Definition main (argv : list text) (w : world) : status * world :=
  if negb (length argv =? 2) then
    match print usage w with
    | (_, w') => (Exit 1, w')
    end
  else
    let filename := nth 1 argv [] in
    match (_ <- fix_all_unused_variables filename ;;
           print (txt "Fixed unused variables in " ++ filename)) w with
    | (Ok _, w') => (Exit 0, w')
    | (Raise e, w') => (Uncaught e, w')
    end.

End IO.

(** ** The same run over path names and writes that can fail

    [IO.world] takes the name for the file and lets every write succeed,
    which is all that the statements about usage errors, read failures
    and exit status 0 need.  Here a name stands for a file of the disk,
    which several names can share, and the environment decides how an
    attempt to write ends. *)

Module Disk.

Import IO.

(** How [open(filename, 'w')] followed by [f.write(content)] ends. *)
Inductive write_outcome : Type :=
| Written                       (* the file holds the text *)
| Refused                       (* [open] raises; the file is as before *)
| Broken (remains : option text).  (* opened, so emptied, then the
                                      write raises; [remains] is what a
                                      read of the file returns after *)

(** The disk and the terminal around one run: the file each path name
    denotes, what a read of each file returns ([None] when [open] or
    [read] raises), how writing a text to a file ends, the lines printed
    and the files opened so far. *)
Record disk : Type :=
  MkDisk { file_of : text -> nat;
           content : nat -> option text;
           on_write : nat -> text -> write_outcome;
           printed : list text;
           opened : list event }.

Definition io (A : Type) : Type := disk -> result A * disk.

Definition bind {A B} (m : io A) (f : A -> io B) : io B :=
  fun d =>
    match m d with
    | (Ok a, d') => f a d'
    | (Raise e, d') => (Raise e, d')
    end.

(** The disk after file [id] has come to hold [v]. *)
Definition store (id : nat) (v : option text) (ev : event) (d : disk)
  : disk :=
  MkDisk (file_of d)
         (fun j => if Nat.eqb j id then v else content d j)
         (on_write d) (printed d) (opened d ++ [ev]).

(** [with open(filename, 'r') as f: content = f.read()] *)
Definition read_file (filename : text) : io text :=
  fun d =>
    let d' := MkDisk (file_of d) (content d) (on_write d) (printed d)
                     (opened d ++ [OpenRead filename]) in
    match content d (file_of d filename) with
    | Some got => (Ok got, d')
    | None => (Raise (OSError filename), d')
    end.

(** [with open(filename, 'w') as f: f.write(content)] *)
Definition write_file (filename new : text) : io unit :=
  fun d =>
    let id := file_of d filename in
    match on_write d id new with
    | Written => (Ok tt, store id (Some new) (OpenWrite filename) d)
    | Refused =>
        (Raise (OSError filename),
         MkDisk (file_of d) (content d) (on_write d) (printed d)
                (opened d ++ [OpenWrite filename]))
    | Broken remains =>
        (Raise (OSError filename), store id remains (OpenWrite filename) d)
    end.

(** [print(line)] *)
Definition print (line : text) : io unit :=
  fun d =>
    (Ok tt,
     MkDisk (file_of d) (content d) (on_write d) (printed d ++ [line])
            (opened d)).

(** Lines 5-43: read, transform, write. *)
Definition fix_all_unused_variables (filename : text) : io unit :=
  bind (read_file filename)
       (fun got => write_file filename (Fix.fix_text got)).

(** Lines 45-50. *)
Definition main (argv : list text) (d : disk) : status * disk :=
  if negb (length argv =? 2) then
    match print usage d with
    | (_, d') => (Exit 1, d')
    end
  else
    let filename := nth 1 argv [] in
    match bind (fix_all_unused_variables filename)
               (fun _ => print (txt "Fixed unused variables in " ++ filename))
               d with
    | (Ok _, d') => (Exit 0, d')
    | (Raise e, d') => (Uncaught e, d')
    end.

(** The disk seen by names, as an [IO.world]. *)
Definition by_name (d : disk) : IO.world :=
  IO.World (fun name => content d (file_of d name)) (printed d) (opened d).

End Disk.


(** * Declarative readings

    What the patterns accept, said without the matcher. *)

(** [Matches r u cs cs']: [r] matches the whole of [u] and turns the
    captures [cs] into [cs'].  No priorities: every way of matching is
    included. *)
Inductive Matches : regex -> text -> caps -> caps -> Prop :=
| MLit w cs :
    Matches (Lit w) w cs cs
| MPlus k u cs :
    u <> [] -> forallb (in_cls k) u = true -> Matches (Plus k) u cs cs
| MStar k u cs :
    forallb (in_cls k) u = true -> Matches (Star k) u cs cs
| MCat r1 r2 u1 u2 cs cs1 cs2 :
    Matches r1 u1 cs cs1 -> Matches r2 u2 cs1 cs2 ->
    Matches (Cat r1 r2) (u1 ++ u2) cs cs2
| MAltL r1 r2 u cs cs' :
    Matches r1 u cs cs' -> Matches (Alt r1 r2) u cs cs'
| MAltR r1 r2 u cs cs' :
    Matches r2 u cs cs' -> Matches (Alt r1 r2) u cs cs'
| MGrp n r u cs cs' :
    Matches r u cs cs' -> Matches (Grp n r) u cs ((n, u) :: cs').

Definition spaces (u : text) : Prop := forallb is_space u = true.
Definition word (u : text) : Prop := forallb is_word u = true.
Definition no_semi (u : text) : Prop := forallb (in_cls NotSemi) u = true.

(** A greedy run of [p] stops in front of [t]. *)
Definition stops (p : ascii -> bool) (t : text) : Prop :=
  match t with
  | [] => True
  | c :: _ => p c = false
  end.

(** The type tokens of the seven patterns. *)
Inductive type_token : text -> Prop :=
| Tok_ember_value : type_token (txt "ember_value")
| Tok_const_char ws :
    ws <> [] -> spaces ws -> type_token (txt "const" ++ ws ++ txt "char*")
| Tok_ember_ptr w :
    w <> [] -> word w -> type_token (txt "ember_" ++ w ++ txt "*")
| Tok_uint32_t : type_token (txt "uint32_t")
| Tok_bool : type_token (txt "bool")
| Tok_EmberPackage : type_token (txt "EmberPackage*")
| Tok_int : type_token (txt "int").

(** [\s*=\s*[^;]+;] *)
Inductive initializer : text -> Prop :=
| Init ws1 ws2 e :
    spaces ws1 -> spaces ws2 -> e <> [] -> no_semi e ->
    initializer (ws1 ++ txt "=" ++ ws2 ++ e ++ txt ";").

(** Group 2 of a pattern: type token, white space, name, initializer. *)
Inductive declaration (name : text) : text -> Prop :=
| Decl tok ws tl :
    type_token tok -> ws <> [] -> spaces ws ->
    name <> [] -> word name -> initializer tl ->
    declaration name (tok ++ ws ++ name ++ tl).

(** The alternation of type tokens at the head of [Fix.name_re]. *)
Definition type_alt : regex :=
  ((Fix.L "ember_" >> Fix.w1 >> Fix.L "*")
   <|> (Fix.L "const" >> Fix.sp1 >> Fix.L "char*")
   <|> Fix.L "uint32_t" <|> Fix.L "bool" <|> Fix.L "EmberPackage*"
   <|> Fix.L "int" <|> Fix.L "ember_value")%re.

(** [t.find(old)]: where the first occurrence starts. *)
Fixpoint find (old t : text) : option nat :=
  match strip_prefix old t with
  | Some _ => Some 0
  | None =>
      match t with
      | [] => None
      | _ :: t' => option_map S (find old t')
      end
  end.

(** [old] occurs at the start of [t]. *)
Definition occurs_at (old t : text) : bool :=
  match strip_prefix old t with
  | Some _ => true
  | None => false
  end.

(** The number of positions of [t] at which [old] occurs. *)
Fixpoint occurrences (old t : text) : nat :=
  (match strip_prefix old t with Some _ => 1 | None => 0 end)
  + match t with
    | [] => 0
    | _ :: t' => occurrences old t'
    end.

(** [annotated t t']: [t'] is [t] with lines inserted after some of its
    semicolons, each a line break followed by text without ['#']. *)
Inductive annotated : text -> text -> Prop :=
| Ann_nil : annotated [] []
| Ann_keep c t t' : annotated t t' -> annotated (c :: t) (c :: t')
| Ann_line e t t' :
    annotated t t' ->
    forallb (fun c => negb (Ascii.eqb c "#")) e = true ->
    annotated (";"%char :: t) (";"%char :: nl :: e ++ t').

(** [subseq a b]: [b] holds the characters of [a], in their order, and
    maybe others between them. *)
Inductive subseq : text -> text -> Prop :=
| Sub_nil b : subseq [] b
| Sub_keep c a b : subseq a b -> subseq (c :: a) (c :: b)
| Sub_skip c a b : subseq a b -> subseq a (c :: b).

(** The type tokens pattern number [i] of [Fix.patterns] accepts. *)
Inductive rule_token : nat -> text -> Prop :=
| Rule_ember_value : rule_token 0 (txt "ember_value")
| Rule_const_char ws :
    ws <> [] -> spaces ws ->
    rule_token 1 (txt "const" ++ ws ++ txt "char*")
| Rule_ember_ptr w :
    w <> [] -> word w -> rule_token 2 (txt "ember_" ++ w ++ txt "*")
| Rule_uint32_t : rule_token 3 (txt "uint32_t")
| Rule_bool : rule_token 4 (txt "bool")
| Rule_EmberPackage : rule_token 5 (txt "EmberPackage*")
| Rule_int : rule_token 6 (txt "int").

(** No ['#'] in a text. *)
Definition no_hash (u : text) : Prop :=
  forallb (fun c => negb (Ascii.eqb c "#")) u = true.

(** ** Sample texts *)

(** [    const char* name = "hello";] *)
Definition hello_line : text :=
  txt "    const char* name = " ++ [dq] ++ txt "hello" ++ [dq] ++ txt ";".

(** A file with a line before the declaration and a line break after it. *)
Definition hello_file : text := txt "a;" ++ [nl] ++ hello_line ++ [nl].

(** [    int x = 5;] and the same line with its annotation. *)
Definition int_line : text := txt "    int x = 5;".
Definition int_annotated : text := int_line ++ [nl] ++ txt "    UNUSED(x);".

(** A file that includes the tracked header twice. *)
Definition two_includes : text := Fix.anchor ++ [nl] ++ Fix.anchor.

(** A file that includes it once, before a declaration. *)
Definition one_include : text :=
  txt "/* t */" ++ [nl] ++ Fix.anchor ++ [nl] ++ int_line.

(** A declaration pattern for a type that [Fix.name_re] does not list. *)
Definition float_pattern : regex :=
  (Grp 1 Fix.sp1
   >> Grp 2 (Fix.L "float" >> Fix.sp1 >> Fix.w1 >> Fix.sp0 >> Fix.L "="
             >> Fix.sp0 >> Fix.ns1 >> Fix.L ";"))%re.

(** * Properties of the library functions *)

Lemma strip_prefix_app (w t : text) : strip_prefix w (w ++ t) = Some t.
Proof.
  induction w as [|a w IH]; simpl; [reflexivity|].
  now rewrite Ascii.eqb_refl.
Qed.

Lemma strip_prefix_Some (w t r : text) :
  strip_prefix w t = Some r -> t = w ++ r.
Proof.
  revert t; induction w as [|a w IH]; intros t H; simpl in *.
  - now inversion H.
  - destruct t as [|b t]; [discriminate|].
    destruct (Ascii.eqb a b) eqn:E; [|discriminate].
    apply Ascii.eqb_eq in E; subst b.
    now rewrite (IH _ H).
Qed.

Lemma firstn_consumed (u t : text) :
  firstn (length (u ++ t) - length t) (u ++ t) = u.
Proof.
  rewrite length_app, Nat.add_sub.
  rewrite firstn_app, Nat.sub_diag, firstn_all, firstn_O.
  apply app_nil_r.
Qed.

(** ** The matcher against a declarative reading of the patterns *)

Lemma rep_sound p t k a :
  rep p t k = Some a ->
  exists u t', t = u ++ t' /\ forallb p u = true /\ k t' = Some a.
Proof.
  induction t as [|c t IH]; simpl; intros H.
  - now exists [], [].
  - destruct (p c) eqn:Pc.
    + destruct (rep p t k) as [b|] eqn:R.
      * inversion H; subst b.
        destruct (IH eq_refl) as (u & t' & -> & Hu & Hk).
        exists (c :: u), t'. simpl. now rewrite Pc, Hu.
      * now exists [], (c :: t).
    + now exists [], (c :: t).
Qed.

Lemma rep_complete p u t k :
  forallb p u = true -> k t <> None -> rep p (u ++ t) k <> None.
Proof.
  induction u as [|c u IH]; simpl; intros Hu Hk.
  - destruct t as [|c t]; simpl; [assumption|].
    destruct (p c); [|assumption].
    now destruct (rep p t k).
  - apply andb_prop in Hu as [Pc Hu]. rewrite Pc.
    specialize (IH Hu Hk).
    now destruct (rep p (u ++ t) k).
Qed.

(** Whatever the matcher finds is a match. *)
Lemma exec_sound r : forall t cs k a,
  exec r t cs k = Some a ->
  exists u t' cs', t = u ++ t' /\ Matches r u cs cs' /\ k t' cs' = Some a.
Proof.
  induction r as [w|c|c|r1 IH1 r2 IH2|r1 IH1 r2 IH2|n r IH];
    simpl; intros t cs k a H.
  - destruct (strip_prefix w t) as [t'|] eqn:E; [|discriminate].
    apply strip_prefix_Some in E.
    exists w, t', cs. repeat split; [assumption|constructor|assumption].
  - destruct t as [|x t]; [discriminate|].
    destruct (in_cls c x) eqn:Cx; [|discriminate].
    apply rep_sound in H as (u & t' & -> & Hu & Hk).
    exists (x :: u), t', cs. repeat split; [|assumption].
    constructor; [discriminate|]. simpl. now rewrite Cx.
  - apply rep_sound in H as (u & t' & -> & Hu & Hk).
    exists u, t', cs. repeat split; [now constructor|assumption].
  - apply IH1 in H as (u1 & t1 & cs1 & -> & M1 & H).
    apply IH2 in H as (u2 & t2 & cs2 & -> & M2 & H).
    exists (u1 ++ u2), t2, cs2.
    repeat split; [now rewrite app_assoc|now econstructor; eauto|assumption].
  - destruct (exec r1 t cs k) as [b|] eqn:E.
    + inversion H; subst b.
      apply IH1 in E as (u & t' & cs' & -> & M & Hk).
      exists u, t', cs'. repeat split; [now apply MAltL|assumption].
    + apply IH2 in H as (u & t' & cs' & -> & M & Hk).
      exists u, t', cs'. repeat split; [now apply MAltR|assumption].
  - apply IH in H as (u & t' & cs' & -> & M & Hk).
    rewrite firstn_consumed in Hk.
    exists u, t', ((n, u) :: cs'). repeat split; [now constructor|assumption].
Qed.

(** Where there is a match the matcher finds one (maybe another). *)
Lemma exec_complete r u cs cs' :
  Matches r u cs cs' ->
  forall t k, k t cs' <> None -> exec r (u ++ t) cs k <> None.
Proof.
  induction 1; simpl; intros t k0 Hk.
  - now rewrite strip_prefix_app.
  - destruct u as [|x u]; [contradiction|].
    simpl in *. apply andb_prop in H0 as [Cx Hu]. rewrite Cx.
    now apply rep_complete.
  - now apply rep_complete.
  - rewrite <- app_assoc. apply IHMatches1. now apply IHMatches2.
  - specialize (IHMatches t k0 Hk).
    now destruct (exec r1 (u ++ t) cs k0).
  - destruct (exec r1 (u ++ t) cs k0); [discriminate|].
    now apply IHMatches.
  - apply IHMatches. now rewrite firstn_consumed.
Qed.

(** A successful [match_at] consumes exactly [group0] from the text. *)
Lemma match_at_sound r t m rest :
  match_at r t = Some (m, rest) ->
  Matches r (group0 m) [] (captures m) /\ t = group0 m ++ rest.
Proof.
  unfold match_at. intros H.
  apply exec_sound in H as (u & t' & cs' & -> & M & H).
  rewrite firstn_consumed in H.
  inversion H; subst; clear H. simpl. now split.
Qed.

Lemma match_at_complete r u cs' t :
  Matches r u [] cs' -> match_at r (u ++ t) <> None.
Proof.
  intros M. unfold match_at.
  eapply exec_complete; [eassumption|discriminate].
Qed.

Lemma search_complete r t :
  match_at r t <> None -> search r t <> None.
Proof.
  destruct t; simpl; destruct (match_at r _) as [[m rest]|];
    intros H; congruence.
Qed.

Lemma search_sound r t m :
  search r t = Some m ->
  exists pre rest, t = pre ++ group0 m ++ rest
                   /\ match_at r (group0 m ++ rest) = Some (m, rest).
Proof.
  induction t as [|c t IH]; simpl; intros H.
  - destruct (match_at r []) as [[m' rest]|] eqn:E; [|discriminate].
    inversion H; subst m'.
    destruct (match_at_sound _ _ _ _ E) as [_ Ht].
    exists [], rest. simpl. now rewrite <- Ht.
  - destruct (match_at r (c :: t)) as [[m' rest]|] eqn:E.
    + inversion H; subst m'.
      destruct (match_at_sound _ _ _ _ E) as [_ Ht].
      exists [], rest. simpl. now rewrite <- Ht.
    + destruct (IH H) as (pre & rest & -> & Hm).
      now exists (c :: pre), rest.
Qed.

(** ** The scanning functions have fuel to spare *)

Lemma sub_fuel_irrelevant r repl : forall n m t,
  length t < n -> length t < m ->
  sub_fuel n r repl t = sub_fuel m r repl t.
Proof.
  induction n as [|n IH]; intros m t Hn Hm; [lia|].
  destruct m as [|m]; [lia|]. simpl.
  destruct (match_at r t) as [[mo rest]|] eqn:E.
  - destruct (match_at_sound _ _ _ _ E) as [_ Ht].
    destruct (group0 mo) as [|g gs] eqn:G.
    + destruct t as [|c t]; [reflexivity|].
      simpl in Hn, Hm. f_equal. f_equal. apply IH; lia.
    + f_equal. apply IH; subst t; rewrite length_app in *; simpl in *; lia.
  - destruct t as [|c t]; [reflexivity|].
    simpl in Hn, Hm. f_equal. apply IH; lia.
Qed.

(** The equation [sub] satisfies: after a match the scan goes on in the
    rest of the text as it was, and what [repl] returned is not scanned
    again. *)
Lemma sub_eq r repl t :
  sub r repl t =
  match match_at r t with
  | Some (m, rest) =>
      match group0 m with
      | _ :: _ => repl m ++ sub r repl rest
      | [] =>
          match t with
          | [] => repl m
          | c :: t' => repl m ++ c :: sub r repl t'
          end
      end
  | None =>
      match t with
      | [] => []
      | c :: t' => c :: sub r repl t'
      end
  end.
Proof.
  unfold sub at 1. simpl.
  destruct (match_at r t) as [[mo rest]|] eqn:E.
  - destruct (match_at_sound _ _ _ _ E) as [_ Ht].
    destruct (group0 mo) as [|g gs] eqn:G.
    + destruct t as [|c t]; reflexivity.
    + f_equal. apply sub_fuel_irrelevant;
        subst t; simpl; rewrite ?length_app; lia.
  - destruct t as [|c t]; reflexivity.
Qed.

Lemma replace_fuel_irrelevant old new : old <> [] -> forall n m t,
  length t <= n -> length t <= m ->
  replace_fuel n old new t = replace_fuel m old new t.
Proof.
  intros Hold. induction n as [|n IH]; intros m t Hn Hm.
  - destruct t; [|simpl in Hn; lia]. now destruct m.
  - destruct m as [|m].
    + destruct t; [reflexivity|simpl in Hm; lia].
    + simpl. destruct t as [|c t]; [reflexivity|].
      destruct (strip_prefix old (c :: t)) as [rest|] eqn:E.
      * apply strip_prefix_Some in E.
        assert (length rest < length (c :: t)).
        { rewrite E, length_app. destruct old; [contradiction|simpl; lia]. }
        f_equal. apply IH; simpl in *; lia.
      * f_equal. apply IH; simpl in *; lia.
Qed.

Lemma replace_eq old new t :
  old <> [] ->
  replace old new t =
  match t with
  | [] => []
  | c :: t' =>
      match strip_prefix old t with
      | Some rest => new ++ replace old new rest
      | None => c :: replace old new t'
      end
  end.
Proof.
  intros Hold. unfold replace at 1.
  destruct t as [|c t]; [reflexivity|].
  cbn [length replace_fuel].
  destruct (strip_prefix old (c :: t)) as [rest|] eqn:E.
  - apply strip_prefix_Some in E.
    assert (length rest < length (c :: t)).
    { rewrite E, length_app. destruct old; [contradiction|simpl; lia]. }
    f_equal. apply replace_fuel_irrelevant; simpl in *; trivial; lia.
  - reflexivity.
Qed.

Lemma contains_false_cons old c t :
  contains old (c :: t) = false ->
  strip_prefix old (c :: t) = None /\ contains old t = false.
Proof.
  cbn [contains].
  destruct (strip_prefix old (c :: t)); [discriminate|now split].
Qed.

(** Nothing to replace: the text comes back as it is. *)
Lemma replace_absent old new t :
  contains old t = false -> replace old new t = t.
Proof.
  intros H.
  assert (Hold : old <> []).
  { intros ->. destruct t; discriminate. }
  revert H. induction t as [|c t IH]; intros H.
  - reflexivity.
  - rewrite replace_eq by assumption.
    apply contains_false_cons in H as [E H].
    rewrite E. now rewrite IH.
Qed.


Lemma search_eq r t :
  search r t =
  match match_at r t with
  | Some (m, _) => Some m
  | None =>
      match t with
      | [] => None
      | _ :: t' => search r t'
      end
  end.
Proof. now destruct t. Qed.

(** * Properties of the script *)

(** ** Characters *)

Lemma space_not_word c : is_space c = true -> is_word c = false.
Proof.
  destruct c as [[] [] [] [] [] [] [] []]; vm_compute; congruence.
Qed.

Lemma word_not_space c : is_word c = true -> is_space c = false.
Proof.
  intros H. destruct (is_space c) eqn:E; [|reflexivity].
  apply space_not_word in E. congruence.
Qed.

(** ** What a match of a declaration pattern looks like *)

Import Fix.
Local Open Scope regex_scope.

Lemma app3 (a b c r : text) : a ++ b ++ c ++ r = (a ++ b ++ c) ++ r.
Proof. now rewrite <- !app_assoc. Qed.

Ltac inv_matches :=
  repeat match goal with
    | H : Matches (Cat _ _) _ _ _ |- _ => inversion H; subst; clear H
    | H : Matches (Grp _ _) _ _ _ |- _ => inversion H; subst; clear H
    | H : Matches (Lit _) _ _ _ |- _ => inversion H; subst; clear H
    | H : Matches (Plus _) _ _ _ |- _ => inversion H; subst; clear H
    | H : Matches (Star _) _ _ _ |- _ => inversion H; subst; clear H
    end.

Lemma decl_match p t m rest :
  In p patterns -> match_at p t = Some (m, rest) ->
  exists indent name a,
    m = MatchObj (indent ++ a) [(2, a); (1, indent)]
    /\ t = indent ++ a ++ rest
    /\ indent <> [] /\ spaces indent /\ declaration name a.
Proof.
  intros Hp H. apply match_at_sound in H as [M Ht].
  destruct m as [g0 cs]. simpl in *. subst t.
  unfold patterns, sp1, sp0, w1, ns1, L in Hp. simpl in Hp.
  repeat (destruct Hp as [<-|Hp]; [inv_matches | ]); [..|contradiction].
  all: rewrite <- app_assoc.
  all: try rewrite (app3 (txt "const")); try rewrite (app3 (txt "ember_")).
  all: eexists _, _, _; split; [reflexivity|]; split; [reflexivity|].
  all: split; [assumption|]; split; [assumption|].
  all: eapply Decl; try eassumption; try (constructor; assumption).
Qed.

Lemma exec_cat r1 r2 t cs k :
  exec (r1 >> r2) t cs k = exec r1 t cs (fun t1 cs1 => exec r2 t1 cs1 k).
Proof. reflexivity. Qed.

Lemma exec_grp n r t cs k :
  exec (Grp n r) t cs k =
  exec r t cs
    (fun t1 cs1 => k t1 ((n, firstn (length t - length t1) t) :: cs1)).
Proof. reflexivity. Qed.

Lemma exec_lit w t cs k :
  exec (Lit w) (w ++ t) cs k = k t cs.
Proof. simpl. now rewrite strip_prefix_app. Qed.

Lemma exec_alt r1 r2 t cs k :
  exec (r1 <|> r2) t cs k =
  match exec r1 t cs k with
  | Some a => Some a
  | None => exec r2 t cs k
  end.
Proof. reflexivity. Qed.


Lemma rep_greedy p u t k a :
  forallb p u = true -> stops p t -> k t = Some a ->
  rep p (u ++ t) k = Some a.
Proof.
  intros Hu Ht Hk. induction u as [|c u IH]; simpl.
  - destruct t as [|c t]; simpl in *; [assumption|].
    now rewrite Ht.
  - simpl in Hu. apply andb_prop in Hu as [Pc Hu].
    now rewrite Pc, (IH Hu).
Qed.

Lemma plus_greedy c u t cs k a :
  u <> [] -> forallb (in_cls c) u = true -> stops (in_cls c) t ->
  k t cs = Some a ->
  exec (Plus c) (u ++ t) cs k = Some a.
Proof.
  intros Hne Hu Ht Hk. destruct u as [|x u]; [contradiction|].
  simpl in *. apply andb_prop in Hu as [Cx Hu]. rewrite Cx.
  now apply rep_greedy.
Qed.

(** [\s+(\w+)] on white space, a name and something that is not a word
    character. *)
Lemma name_exec ws name tl cs k a :
  ws <> [] -> spaces ws -> name <> [] -> word name -> stops is_word tl ->
  k tl ((1, name) :: cs) = Some a ->
  exec (sp1 >> Grp 1 w1) (ws ++ name ++ tl) cs k = Some a.
Proof.
  intros Hws Sws Hn Wn Htl Hk.
  unfold sp1, w1. rewrite exec_cat. apply plus_greedy; trivial.
  - destruct name as [|x name]; [contradiction|]. simpl in *.
    apply andb_prop in Wn as [Wx _]. now apply word_not_space.
  - rewrite exec_grp. apply plus_greedy; trivial.
    now rewrite firstn_consumed.
Qed.


Lemma name_re_eq : name_re = type_alt >> sp1 >> Grp 1 w1.
Proof. reflexivity. Qed.

Lemma star_not_word y : is_word y = true -> Ascii.eqb "*" y = false.
Proof.
  destruct y as [[] [] [] [] [] [] [] []]; vm_compute; congruence.
Qed.

Lemma star_not_space y : is_space y = true -> Ascii.eqb "*" y = false.
Proof.
  destruct y as [[] [] [] [] [] [] [] []]; vm_compute; congruence.
Qed.

(** A run that is followed by [x] fails when the rest of the pattern
    refuses every text that starts inside the run or at [x]. *)
Lemma rep_none p u x t k :
  forallb p u = true -> p x = false ->
  (forall y s, p y = true \/ y = x -> k (y :: s) = None) ->
  rep p (u ++ x :: t) k = None.
Proof.
  intros Hu Hx Hk. induction u as [|c u IH]; simpl.
  - rewrite Hx. apply Hk. now right.
  - simpl in Hu. apply andb_prop in Hu as [Pc Hu].
    rewrite Pc, (IH Hu). apply Hk. now left.
Qed.

(** [ember_\w+\*] does not match [ember_value] before white space. *)
Lemma ember_value_not_ptr c t k :
  is_space c = true ->
  exec (L "ember_" >> w1 >> L "*") (txt "ember_value" ++ c :: t) [] k = None.
Proof.
  intros Hc. unfold L, w1.
  change (txt "ember_value" ++ c :: t)
    with (txt "ember_" ++ "v"%char :: txt "alue" ++ c :: t).
  rewrite exec_cat, exec_lit, exec_cat.
  cbn [exec]. change (in_cls Word "v") with true. cbv iota.
  apply rep_none; [reflexivity|now apply space_not_word|].
  intros y s [Hy| ->]; cbn [strip_prefix txt list_ascii_of_string].
  - change (in_cls Word y) with (is_word y) in Hy.
    now rewrite (star_not_word _ Hy).
  - now rewrite (star_not_space _ Hc).
Qed.

Ltac skip_branch :=
  rewrite exec_alt;
  match goal with
  | |- match ?e with _ => _ end = _ => change e with (@None answer)
  end;
  cbv beta iota.

Lemma const_char_exec ws t k a :
  ws <> [] -> spaces ws -> k t [] = Some a ->
  exec (L "const" >> sp1 >> L "char*")
       (txt "const" ++ ws ++ txt "char*" ++ t) [] k = Some a.
Proof.
  intros Hne Hws Hk. unfold L, sp1.
  rewrite exec_cat, exec_lit, exec_cat.
  apply plus_greedy; [assumption|assumption|reflexivity|].
  now rewrite exec_lit.
Qed.

Lemma ember_ptr_exec w t k a :
  w <> [] -> word w -> k t [] = Some a ->
  exec (L "ember_" >> w1 >> L "*")
       (txt "ember_" ++ w ++ txt "*" ++ t) [] k = Some a.
Proof.
  intros Hne Hw Hk. unfold L, w1.
  rewrite exec_cat, exec_lit, exec_cat.
  apply plus_greedy; [assumption|assumption|reflexivity|].
  now rewrite exec_lit.
Qed.

Lemma type_alt_exec tok c t k a :
  type_token tok -> is_space c = true ->
  k (c :: t) [] = Some a ->
  exec type_alt (tok ++ c :: t) [] k = Some a.
Proof.
  intros Htok Hc Hk. unfold type_alt.
  destruct Htok as [|ws Hne Hws|w Hne Hw| | | |].
  - rewrite exec_alt, ember_value_not_ptr by assumption.
    do 5 skip_branch. unfold L. now rewrite exec_lit.
  - skip_branch. rewrite exec_alt, <- !app_assoc.
    now rewrite const_char_exec with (a := a).
  - rewrite exec_alt, <- !app_assoc.
    now rewrite ember_ptr_exec with (a := a).
  - do 2 skip_branch. rewrite exec_alt. unfold L at 1. now rewrite exec_lit, Hk.
  - do 3 skip_branch. rewrite exec_alt. unfold L at 1. now rewrite exec_lit, Hk.
  - do 4 skip_branch. rewrite exec_alt. unfold L at 1. now rewrite exec_lit, Hk.
  - do 5 skip_branch. rewrite exec_alt. unfold L at 1. now rewrite exec_lit, Hk.
Qed.

Lemma initializer_stops tl : initializer tl -> stops is_word tl.
Proof.
  intros [ws1 ws2 e Hws1 _ _ _].
  destruct ws1 as [|c ws1]; [reflexivity|].
  simpl in *. apply andb_prop in Hws1 as [Hc _].
  now apply space_not_word.
Qed.

(** On a declaration the name pattern matches at the first character
    and captures the declared name. *)
Lemma name_re_decl name a :
  declaration name a ->
  exists u tl, a = u ++ tl
               /\ match_at name_re a = Some (MatchObj u [(1, name)], tl).
Proof.
  intros [tok ws tl Htok Hne Hws Hn Hw Htl].
  exists (tok ++ ws ++ name), tl.
  split; [now rewrite <- !app_assoc|].
  unfold match_at. rewrite name_re_eq, exec_cat.
  destruct ws as [|c ws]; [contradiction|].
  pose proof Hws as Hc. simpl in Hc. apply andb_prop in Hc as [Hc _].
  change ((c :: ws) ++ name ++ tl) with (c :: ws ++ name ++ tl).
  apply type_alt_exec; trivial.
  change (c :: ws ++ name ++ tl) with ((c :: ws) ++ name ++ tl).
  apply name_exec; trivial.
  - now apply initializer_stops.
  - replace (tok ++ (c :: ws) ++ name ++ tl)
      with ((tok ++ (c :: ws) ++ name) ++ tl)
      by now rewrite <- !app_assoc.
    now rewrite firstn_consumed.
Qed.

Lemma search_decl name a :
  declaration name a ->
  exists u, search name_re a = Some (MatchObj u [(1, name)]).
Proof.
  intros H. destruct (name_re_decl _ _ H) as (u & tl & _ & E).
  exists u. now rewrite search_eq, E.
Qed.

(** What [replacement] returns on a match of a declaration pattern. *)
Lemma replacement_decl indent name a g0 :
  declaration name a ->
  replacement (MatchObj g0 [(2, a); (1, indent)]) =
  indent ++ a ++ [nl] ++ indent ++ txt "UNUSED(" ++ name ++ txt ");".
Proof.
  intros H. destruct (search_decl _ _ H) as [u E].
  unfold replacement, group. simpl lookup. cbv iota beta.
  now rewrite E.
Qed.


(** No pattern of the script matches the empty string. *)
Lemma match_at_nonempty p t m rest :
  In p patterns -> match_at p t = Some (m, rest) -> group0 m <> [].
Proof.
  intros Hp H.
  destruct (decl_match _ _ _ _ Hp H) as (i & n & a & -> & _ & Hi & _).
  simpl. destruct i; [contradiction|discriminate].
Qed.

(** Groups 1 and 2 always take part in a match. *)
Lemma match_at_groups p t m rest :
  In p patterns -> match_at p t = Some (m, rest) ->
  lookup 1 (captures m) <> None /\ lookup 2 (captures m) <> None
  /\ group0 m = group 1 m ++ group 2 m.
Proof.
  intros Hp H.
  destruct (decl_match _ _ _ _ Hp H) as (i & n & a & -> & _).
  repeat split; discriminate.
Qed.

(** One step of [re.sub] with a pattern of the script. *)
Lemma sub_decl_eq p repl t :
  In p patterns ->
  sub p repl t =
  match match_at p t with
  | Some (m, rest) => repl m ++ sub p repl rest
  | None =>
      match t with
      | [] => []
      | c :: t' => c :: sub p repl t'
      end
  end.
Proof.
  intros Hp. rewrite sub_eq.
  destruct (match_at p t) as [[m rest]|] eqn:E; [|reflexivity].
  pose proof (match_at_nonempty _ _ _ _ Hp E) as Hne.
  destruct (group0 m); [contradiction|reflexivity].
Qed.

Lemma sub_no_match r repl t : search r t = None -> sub r repl t = t.
Proof.
  induction t as [|c t IH]; intros H; rewrite search_eq in H;
    rewrite sub_eq; destruct (match_at r _) as [[m rest]|];
    try discriminate; [reflexivity|].
  now rewrite IH.
Qed.

(** What [replacement] makes of a match is longer than the match. *)
Lemma replacement_longer p t m rest :
  In p patterns -> match_at p t = Some (m, rest) ->
  length (group0 m) < length (replacement m).
Proof.
  intros Hp H.
  destruct (decl_match _ _ _ _ Hp H) as (i & n & a & -> & _ & _ & _ & D).
  rewrite (replacement_decl i n a _ D). simpl group0.
  rewrite !length_app. simpl. lia.
Qed.

(** A rule never shortens the text, and keeps its length only when its
    pattern matches nowhere. *)
Lemma sub_length p : In p patterns -> forall n t,
  length t <= n ->
  length t <= length (sub p replacement t)
  /\ (length (sub p replacement t) = length t -> search p t = None).
Proof.
  intros Hp. induction n as [|n IH]; intros t Hn;
    rewrite (sub_decl_eq _ _ _ Hp), search_eq.
  - destruct t; [|simpl in Hn; lia].
    destruct (match_at p []) as [[m rest]|] eqn:E; [|now split].
    pose proof (match_at_nonempty _ _ _ _ Hp E) as Hne.
    apply match_at_sound in E as [_ E].
    destruct (group0 m); [contradiction|discriminate].
  - destruct (match_at p t) as [[m rest]|] eqn:E.
    + pose proof (replacement_longer _ _ _ _ Hp E) as Hl.
      pose proof (match_at_nonempty _ _ _ _ Hp E) as Hne.
      apply match_at_sound in E as [_ ->].
      assert (Hr : length rest <= n).
      { rewrite length_app in Hn. destruct (group0 m); [contradiction|].
        simpl in Hn. lia. }
      destruct (IH rest Hr) as [IH1 _].
      rewrite !length_app. split; lia.
    + destruct t as [|c t]; [now split|].
      simpl in Hn. destruct (IH t) as [IH1 IH2]; [lia|].
      simpl. split; [lia|]. intros Hl. apply IH2. lia.
Qed.

(** ** The macro step *)

Lemma anchor_nonempty : anchor <> [].
Proof. discriminate. Qed.

(** [replace] at the first occurrence. *)
Lemma replace_find old new : old <> [] -> forall t i,
  find old t = Some i ->
  replace old new t =
  firstn i t ++ new ++ replace old new (skipn (i + length old) t).
Proof.
  intros Hold. induction t as [|c t IH]; intros i H.
  - destruct old; [contradiction|discriminate].
  - rewrite replace_eq by assumption. cbn [find] in H.
    destruct (strip_prefix old (c :: t)) as [rest|] eqn:E.
    + inversion H; subst i. apply strip_prefix_Some in E.
      rewrite E at 2. simpl firstn. simpl "+".
      rewrite skipn_app, skipn_all, Nat.sub_diag. reflexivity.
    + destruct (find old t) as [j|] eqn:F; [|discriminate].
      inversion H; subst i. simpl. now rewrite (IH j eq_refl).
Qed.

Lemma contains_find old t : contains old t = false <-> find old t = None.
Proof.
  induction t as [|c t IH]; cbn [contains find];
    destruct (strip_prefix old _); try easy.
  rewrite IH. now destruct (find old t).
Qed.

(** ** Annotation lines and the macro definition *)

Lemma annotated_app u t t' : annotated t t' -> annotated (u ++ t) (u ++ t').
Proof.
  intros H. induction u as [|c u IH]; [assumption|].
  simpl. now constructor.
Qed.

(** An occurrence of a text without [';'] reads the same characters
    before and after the insertions. *)
Lemma annotated_occurs_at w : forallb (in_cls NotSemi) w = true ->
  forall t t', annotated t t' -> occurs_at w t = occurs_at w t'.
Proof.
  unfold occurs_at. induction w as [|a w IH]; intros Hw t t' H.
  - reflexivity.
  - simpl in Hw. apply andb_prop in Hw as [Ha Hw].
    destruct H as [|c t t' H|e t t' H He]; simpl.
    + reflexivity.
    + destruct (Ascii.eqb a c); [|reflexivity]. now apply IH.
    + apply negb_true_iff in Ha. now rewrite Ha.
Qed.

Lemma occurrences_cons old c t :
  occurrences old (c :: t) =
  (if occurs_at old (c :: t) then 1 else 0) + occurrences old t.
Proof.
  unfold occurs_at. cbn [occurrences].
  now destruct (strip_prefix old (c :: t)).
Qed.

Lemma occurrences_skip w e t :
  forallb (fun c => negb (Ascii.eqb c "#")) e = true ->
  occurrences ("#"%char :: w) (e ++ t) = occurrences ("#"%char :: w) t.
Proof.
  induction e as [|c e IH]; intros He; [reflexivity|].
  simpl in He. apply andb_prop in He as [Hc He].
  simpl app. rewrite occurrences_cons, (IH He).
  unfold occurs_at. cbn [strip_prefix].
  apply negb_true_iff in Hc. rewrite Ascii.eqb_sym in Hc. now rewrite Hc.
Qed.

(** Inserting annotation lines neither adds nor removes an occurrence of
    a text that starts with ['#'] and has no [';']. *)
Lemma annotated_occurrences w :
  forallb (in_cls NotSemi) w = true ->
  forall t t', annotated t t' ->
  occurrences ("#"%char :: w) t' = occurrences ("#"%char :: w) t.
Proof.
  intros Hw t t' H.
  assert (Hw' : forallb (in_cls NotSemi) ("#"%char :: w) = true)
    by (simpl; now rewrite Hw).
  induction H as [|c t t' H IH|e t t' H IH He].
  - reflexivity.
  - rewrite !occurrences_cons, IH.
    rewrite (annotated_occurs_at _ Hw' (c :: t) (c :: t')); [reflexivity|].
    now constructor.
  - rewrite (occurrences_cons _ _ t), (occurrences_cons _ _ (nl :: _)).
    rewrite (occurrences_cons _ nl), occurrences_skip, IH by assumption.
    reflexivity.
Qed.

Lemma annotated_refl t : annotated t t.
Proof. induction t; now constructor. Qed.

Lemma not_hash c :
  is_space c = true \/ is_word c = true -> negb (Ascii.eqb c "#") = true.
Proof.
  destruct c as [[] [] [] [] [] [] [] []]; vm_compute; intuition congruence.
Qed.

Lemma forallb_not_hash p u :
  (forall c, p c = true -> is_space c = true \/ is_word c = true) ->
  forallb p u = true ->
  forallb (fun c => negb (Ascii.eqb c "#")) u = true.
Proof.
  intros Hp Hu. apply forallb_forall. intros c Hc.
  apply not_hash, Hp. revert c Hc. now apply forallb_forall.
Qed.

Lemma declaration_ends name a :
  declaration name a -> exists body, a = body ++ [";"%char].
Proof.
  intros [tok ws tl _ _ _ _ _ [ws1 ws2 e _ _ _ _]].
  exists (tok ++ ws ++ name ++ ws1 ++ txt "=" ++ ws2 ++ e).
  now rewrite <- !app_assoc.
Qed.

(** A rule only inserts annotation lines after semicolons. *)
Lemma sub_annotated p : In p patterns -> forall n t,
  length t <= n -> annotated t (sub p replacement t).
Proof.
  intros Hp. induction n as [|n IH]; intros t Hn;
    rewrite (sub_decl_eq _ _ _ Hp).
  - destruct t; [|simpl in Hn; lia].
    destruct (match_at p []) as [[m rest]|] eqn:E; [|constructor].
    pose proof (match_at_nonempty _ _ _ _ Hp E) as Hne.
    apply match_at_sound in E as [_ E].
    destruct (group0 m); [contradiction|discriminate].
  - destruct (match_at p t) as [[m rest]|] eqn:E.
    + destruct (decl_match _ _ _ _ Hp E)
        as (i & name & a & -> & -> & Hi & Si & D).
      rewrite (replacement_decl i name a _ D).
      destruct (declaration_ends _ _ D) as [body ->].
      assert (Hr : length rest <= n).
      { rewrite !length_app in Hn. destruct i; [contradiction|].
        simpl in Hn. lia. }
      rewrite <- !app_assoc. do 2 apply annotated_app.
      replace ([nl] ++ i ++ txt "UNUSED(" ++ name ++ txt ");"
               ++ sub p replacement rest)
        with (nl :: (i ++ txt "UNUSED(" ++ name ++ txt ");")
                    ++ sub p replacement rest)
        by (now rewrite <- !app_assoc).
      apply Ann_line; [now apply IH|].
      assert (Wn : word name) by now destruct D.
      rewrite !forallb_app.
      rewrite (forallb_not_hash is_space i), (forallb_not_hash is_word name);
        auto.
    + destruct t as [|c t]; constructor.
      apply IH. simpl in Hn. lia.
Qed.

Lemma apply_rules_eq t :
  apply_rules t =
  fold_left (fun content pattern => sub pattern replacement content)
            patterns t.
Proof. reflexivity. Qed.

(** The rules leave the number of macro definitions as it is. *)
Lemma apply_rules_occurrences t :
  occurrences macro_def (apply_rules t) = occurrences macro_def t.
Proof.
  rewrite apply_rules_eq.
  assert (H : forall ps, incl ps patterns -> forall t,
             occurrences macro_def
               (fold_left (fun c p => sub p replacement c) ps t)
             = occurrences macro_def t).
  { induction ps as [|p ps IH]; intros Hps t0; [reflexivity|].
    simpl. rewrite IH by (intros q Hq; apply Hps; now right).
    apply (annotated_occurrences (txt "define UNUSED(x)")); [reflexivity|].
    apply (sub_annotated p) with (n := length t0); [|lia].
    apply Hps. now left. }
  apply H, incl_refl.
Qed.

(** ** Fixed points of the transformation *)

Lemma replace_length old new : old <> [] -> length old <= length new ->
  forall n t, length t <= n -> length t <= length (replace old new t).
Proof.
  intros Hold Hlen. induction n as [|n IH]; intros t Hn;
    rewrite replace_eq by assumption.
  - destruct t; [reflexivity|simpl in Hn; lia].
  - destruct t as [|c t]; [reflexivity|].
    destruct (strip_prefix old (c :: t)) as [rest|] eqn:E.
    + apply strip_prefix_Some in E. rewrite E in *.
      rewrite !length_app in *.
      assert (length rest <= n).
      { destruct old; [contradiction|simpl in Hn; lia]. }
      specialize (IH rest). lia.
    + simpl in *. specialize (IH t). lia.
Qed.

Lemma find_bound old t i : find old t = Some i -> i + length old <= length t.
Proof.
  revert i. induction t as [|c t IH]; intros i; cbn [find];
    destruct (strip_prefix old _) as [rest|] eqn:E.
  - intros H; inversion H. apply strip_prefix_Some in E.
    rewrite E, length_app. simpl. lia.
  - discriminate.
  - intros H; inversion H. apply strip_prefix_Some in E.
    rewrite E, length_app. simpl. lia.
  - destruct (find old t) as [j|]; [|discriminate].
    intros H; inversion H. specialize (IH j eq_refl). simpl. lia.
Qed.

(** The macro step never shortens the text and keeps its length only when
    it changes nothing. *)
Lemma ensure_marker_length t :
  length t <= length (ensure_marker_present t)
  /\ (length (ensure_marker_present t) = length t ->
      ensure_marker_present t = t).
Proof.
  unfold ensure_marker_present.
  destruct (contains macro_def t); simpl; [now split|].
  destruct (find anchor t) as [i|] eqn:F.
  - pose proof (find_bound _ _ _ F) as Hb.
    rewrite (replace_find anchor anchor_with_macro anchor_nonempty _ _ F).
    pose proof (replace_length anchor anchor_with_macro anchor_nonempty
                  ltac:(vm_compute; lia) _
                  (skipn (i + length anchor) t) (le_n _)) as Hr.
    rewrite !length_app, length_firstn, length_skipn in *.
    change (length anchor_with_macro) with 114.
    change (length anchor) with 32 in *.
    split; lia.
  - apply contains_find in F. now rewrite replace_absent.
Qed.

Lemma rules_length ps : incl ps patterns -> forall t,
  let out := fold_left (fun c p => sub p replacement c) ps t in
  length t <= length out
  /\ (length out = length t ->
      Forall (fun p => search p t = None) ps /\ out = t).
Proof.
  induction ps as [|p ps IH]; intros Hps t; simpl.
  - repeat split; constructor.
  - assert (Hp : In p patterns) by (apply Hps; now left).
    destruct (sub_length p Hp _ t (le_n _)) as [L1 L2].
    destruct (IH (fun q Hq => Hps q (or_intror Hq)) (sub p replacement t))
      as [L3 L4]. simpl in L3, L4.
    split; [lia|]. intros Heq.
    assert (E : search p t = None) by (apply L2; lia).
    pose proof (sub_no_match p replacement t E) as Es.
    rewrite Es in *. destruct (L4 Heq) as [F1 F2].
    split; [now constructor|assumption].
Qed.

Lemma rules_no_match ps t :
  Forall (fun p => search p t = None) ps ->
  fold_left (fun c p => sub p replacement c) ps t = t.
Proof.
  induction 1 as [|p ps Hp _ IH]; simpl; [reflexivity|].
  now rewrite sub_no_match.
Qed.

Import IO.

(** * The statements of the specification *)

(** C1, at an input where the code departs from it: the declaration line
    of the scenario stands on the second line of the file.  Group 1 of
    the pattern is [\s+] and takes the line break in front of the
    indentation with it, so the annotation is separated from the
    declaration by an empty line instead of following it immediately. *)
Theorem C1_blank_line_before_annotation :
  fix_text hello_file =
  txt "a;" ++ [nl] ++ hello_line ++ [nl] ++ [nl] ++ txt "    UNUSED(name);"
  ++ [nl].
Proof. vm_compute. reflexivity. Qed.

(** When the declaration is the first thing in the file there is no line
    break to capture and the annotation follows at once. *)
Example first_line_annotated :
  fix_text hello_line = hello_line ++ [nl] ++ txt "    UNUSED(name);".
Proof. vm_compute. reflexivity. Qed.

(** C2 fails: a file that holds one declaration with its annotation (it is
    what the tool makes of the declaration alone) is not left alone; a
    second annotation line is inserted. *)
Lemma C2_counterexample :
  fix_text int_line = int_annotated
  /\ fix_text int_annotated = int_annotated ++ [nl] ++ txt "    UNUSED(x);"
  /\ fix_text int_annotated <> int_annotated.
Proof.
  assert (E : fix_text int_annotated
              = int_annotated ++ [nl] ++ txt "    UNUSED(x);")
    by (vm_compute; reflexivity).
  split; [vm_compute; reflexivity|]. split; [exact E|].
  rewrite E. intros H. apply (f_equal (@length ascii)) in H.
  vm_compute in H. discriminate.
Qed.

(** C3 fails: [str.replace] replaces every occurrence.  With the tracked
    include twice in a text that has no macro definition, the block is
    inserted after both, so the result is not the text with one block
    after the first include and holds the definition twice. *)
Lemma C3_counterexample :
  contains macro_def two_includes = false
  /\ find anchor two_includes = Some 0
  /\ ensure_marker_present two_includes
     = anchor ++ macro_block ++ [nl] ++ anchor ++ macro_block
  /\ ensure_marker_present two_includes
     <> anchor ++ macro_block ++ [nl] ++ anchor
  /\ occurrences macro_def (ensure_marker_present two_includes) = 2.
Proof.
  assert (E : ensure_marker_present two_includes
              = anchor ++ macro_block ++ [nl] ++ anchor ++ macro_block)
    by (vm_compute; reflexivity).
  split; [reflexivity|]. split; [reflexivity|]. split; [exact E|].
  split; [|vm_compute; reflexivity].
  rewrite E. intros H. apply (f_equal (@length ascii)) in H.
  vm_compute in H. discriminate.
Qed.

(** C3, amended: in a text without the macro definition whose first
    anchor line starts at position [i], the block is inserted right after
    that anchor line, and the same replacement is applied to the rest of
    the text; when the anchor line does not occur again, the block is
    inserted exactly once. *)
Theorem C3_block_after_every_anchor (t : text) (i : nat) :
  contains macro_def t = false ->
  find anchor t = Some i ->
  let rest := skipn (i + length anchor) t in
  ensure_marker_present t
  = firstn i t ++ anchor ++ macro_block
    ++ replace anchor anchor_with_macro rest
  /\ (contains anchor rest = false ->
      ensure_marker_present t = firstn i t ++ anchor ++ macro_block ++ rest).
Proof.
  intros Hm Hf rest.
  assert (E : ensure_marker_present t
              = firstn i t ++ anchor ++ macro_block
                ++ replace anchor anchor_with_macro rest).
  { unfold ensure_marker_present. rewrite Hm. cbn [negb].
    rewrite (replace_find anchor anchor_with_macro anchor_nonempty _ _ Hf).
    unfold anchor_with_macro. now rewrite <- !app_assoc. }
  split; [exact E|].
  intros Hr. now rewrite E, replace_absent.
Qed.

Lemma C3_block_after_every_anchor_witness :
  let rest := skipn (8 + length anchor) one_include in
  contains macro_def one_include = false
  /\ find anchor one_include = Some 8
  /\ contains anchor rest = false
  /\ ensure_marker_present one_include
     = firstn 8 one_include ++ anchor ++ macro_block
       ++ replace anchor anchor_with_macro rest
  /\ ensure_marker_present one_include
     = firstn 8 one_include ++ anchor ++ macro_block ++ rest.
Proof.
  split; [reflexivity|]. split; [reflexivity|]. split; [reflexivity|].
  destruct (C3_block_after_every_anchor one_include 8 eq_refl eq_refl)
    as [H1 H2].
  split; [exact H1|]. apply H2. reflexivity.
Defined.

(** C4: without the anchor line the macro step returns the text as it
    is, the whole transformation is that of the rules alone, and the
    number of macro definitions in the text stays what it was. *)
Theorem C4_no_anchor (t : text) :
  contains anchor t = false ->
  ensure_marker_present t = t
  /\ fix_text t = apply_rules t
  /\ occurrences macro_def (fix_text t) = occurrences macro_def t.
Proof.
  intros H.
  assert (E : ensure_marker_present t = t).
  { unfold ensure_marker_present.
    destruct (contains macro_def t); cbn [negb]; [reflexivity|].
    now apply replace_absent. }
  unfold fix_text. rewrite E.
  repeat split. apply apply_rules_occurrences.
Qed.

Lemma C4_no_anchor_witness :
  contains anchor hello_file = false
  /\ ensure_marker_present hello_file = hello_file
  /\ fix_text hello_file = apply_rules hello_file
  /\ occurrences macro_def (fix_text hello_file)
     = occurrences macro_def hello_file.
Proof.
  split; [reflexivity|].
  apply (C4_no_anchor hello_file). reflexivity.
Defined.

(** C5: when the text holds the macro definition the macro step inserts
    nothing, and the run leaves the number of macro definitions in the
    text as it was. *)
Theorem C5_macro_present (t : text) :
  contains macro_def t = true ->
  ensure_marker_present t = t
  /\ fix_text t = apply_rules t
  /\ occurrences macro_def (fix_text t) = occurrences macro_def t.
Proof.
  intros H.
  assert (E : ensure_marker_present t = t).
  { unfold ensure_marker_present. now rewrite H. }
  unfold fix_text. rewrite E.
  repeat split. apply apply_rules_occurrences.
Qed.

Lemma C5_macro_present_witness :
  let t := anchor_with_macro ++ [nl] ++ int_line in
  contains macro_def t = true
  /\ ensure_marker_present t = t
  /\ fix_text t = apply_rules t
  /\ occurrences macro_def (fix_text t) = occurrences macro_def t.
Proof.
  split; [reflexivity|].
  apply (C5_macro_present (anchor_with_macro ++ [nl] ++ int_line)).
  reflexivity.
Defined.

(** C6: whatever pattern produced the match, when the name pattern finds
    nothing in group 2 the replacement function returns the match itself,
    so [re.sub] copies the matched text and goes on behind it; the
    function returns a text and has no other effect. *)
Theorem C6_extraction_miss_is_identity
        (r : regex) (t : text) (m : match_obj) (rest : text) :
  match_at r t = Some (m, rest) ->
  search name_re (group 2 m) = None ->
  replacement m = group0 m
  /\ t = group0 m ++ rest
  /\ (group0 m <> [] ->
      sub r replacement t = group0 m ++ sub r replacement rest).
Proof.
  intros Hm Hs.
  assert (E : replacement m = group0 m).
  { unfold replacement. now rewrite Hs. }
  destruct (match_at_sound _ _ _ _ Hm) as [_ Ht].
  split; [exact E|]. split; [exact Ht|].
  intros Hne. rewrite sub_eq, Hm.
  destruct (group0 m) eqn:G; [contradiction|].
  now rewrite E.
Qed.

Lemma C6_extraction_miss_is_identity_witness :
  let t := txt " float f = 1; x" in
  let m := MatchObj (txt " float f = 1;")
                    [(2, txt "float f = 1;"); (1, txt " ")] in
  match_at float_pattern t = Some (m, txt " x")
  /\ search name_re (group 2 m) = None
  /\ replacement m = group0 m
  /\ t = group0 m ++ txt " x"
  /\ (group0 m <> [] ->
      sub float_pattern replacement t
      = group0 m ++ sub float_pattern replacement (txt " x")).
Proof.
  split; [reflexivity|]. split; [reflexivity|].
  apply (C6_extraction_miss_is_identity float_pattern
           (txt " float f = 1; x")); reflexivity.
Defined.

(** C7: there are seven patterns; the text goes through them in the order
    of the list, each rule working on what the rule before it returned;
    and within a rule the scan emits the replacement of a match and goes
    on in the rest of the text as it was before the rule ran, so what the
    replacement function returned is not scanned again. *)
Theorem C7_rules_in_order (p : regex) (t : text) :
  In p patterns ->
  length patterns = 7
  /\ (let rule i c := sub (nth i patterns (Lit [])) replacement c in
      apply_rules t
      = rule 6 (rule 5 (rule 4 (rule 3 (rule 2 (rule 1 (rule 0 t)))))))
  /\ sub p replacement t
     = match match_at p t with
       | Some (m, rest) => replacement m ++ sub p replacement rest
       | None =>
           match t with
           | [] => []
           | c :: t' => c :: sub p replacement t'
           end
       end.
Proof.
  intros Hp. split; [reflexivity|]. split; [reflexivity|].
  now apply sub_decl_eq.
Qed.

Lemma C7_rules_in_order_witness :
  let p := nth 6 patterns (Lit []) in
  let t := txt " int a = 1; int b = 2;" in
  In p patterns
  /\ sub p replacement t
     = txt " int a = 1;" ++ [nl] ++ txt " UNUSED(a);"
       ++ sub p replacement (txt " int b = 2;").
Proof.
  split; [simpl; tauto|].
  pose proof (C7_rules_in_order (nth 6 patterns (Lit []))
                (txt " int a = 1; int b = 2;")
                ltac:(simpl; tauto)) as [_ [_ H]].
  rewrite H. reflexivity.
Defined.

(** C8: with any number of command-line words other than two (the
    script's name and one file name) the program prints the usage line,
    exits with status 1, and the files and the record of file operations
    are what they were. *)
Theorem C8_usage_error (argv : list text) (w : world) :
  length argv <> 2 ->
  main argv w
  = (Exit 1, World (files w) (stdout w ++ [usage]) (trace w)).
Proof.
  intros H. unfold main.
  apply Nat.eqb_neq in H. now rewrite H.
Qed.

Lemma C8_usage_error_witness :
  let w := World (fun _ => Some int_line) [] [] in
  let script := txt "comprehensive_fix.py" in
  (length [script] <> 2
   /\ main [script] w
      = (Exit 1, World (files w) (stdout w ++ [usage]) (trace w)))
  /\ (length [script; txt "a.c"; txt "b.c"] <> 2
      /\ main [script; txt "a.c"; txt "b.c"] w
         = (Exit 1, World (files w) (stdout w ++ [usage]) (trace w))).
Proof.
  split; (split; [simpl; lia|apply C8_usage_error; simpl; lia]).
Defined.

(** C9: when the file cannot be read, or the computation on its text
    raises, the run ends with that exception after the one attempt to
    read: the files are those of before the run, nothing was printed and
    the file was never opened for writing. *)
Theorem C9_failure_leaves_file
        (process : text -> result text) (filename : text) (w : world) :
  files w filename = None
  \/ (exists content e,
        files w filename = Some content /\ process content = Raise e) ->
  exists e,
    rewrite_file process filename w
    = (Raise e,
       World (files w) (stdout w) (trace w ++ [OpenRead filename])).
Proof.
  intros [H|(content & e & H & P)];
    unfold rewrite_file, bind, read_file, lift; rewrite H.
  - now exists (OSError filename).
  - exists e. now rewrite P.
Qed.

Lemma C9_failure_leaves_file_witness :
  let w := World (fun _ => None) [] [] in
  let filename := txt "missing.c" in
  (files w filename = None
   \/ (exists content e,
         files w filename = Some content
         /\ Ok (fix_text content) = Raise e))
  /\ exists e,
       fix_all_unused_variables filename w
       = (Raise e,
          World (files w) (stdout w) (trace w ++ [OpenRead filename])).
Proof.
  split; [left; reflexivity|].
  apply (C9_failure_leaves_file (fun content => Ok (fix_text content))).
  left. reflexivity.
Defined.

(** C10: on group 2 of any match of any of the seven patterns the name
    pattern succeeds and captures the declared name (group 2 is a type
    token, white space, that name and an initializer), so the replacement
    function takes its first branch: the match receives an annotation and
    is never returned as it is. *)
Theorem C10_extraction_always_succeeds
        (p : regex) (t : text) (m : match_obj) (rest : text) :
  In p patterns ->
  match_at p t = Some (m, rest) ->
  exists var_match,
    search name_re (group 2 m) = Some var_match
    /\ declaration (group 1 var_match) (group 2 m)
    /\ replacement m
       = group 1 m ++ group 2 m ++ [nl] ++ group 1 m
         ++ txt "UNUSED(" ++ group 1 var_match ++ txt ");"
    /\ replacement m <> group0 m.
Proof.
  intros Hp Hm.
  pose proof (replacement_longer _ _ _ _ Hp Hm) as Hl.
  destruct (decl_match _ _ _ _ Hp Hm) as (i & name & a & -> & _ & _ & _ & D).
  destruct (search_decl _ _ D) as [u E].
  exists (MatchObj u [(1, name)]).
  split; [exact E|]. split; [exact D|]. split.
  - now rewrite (replacement_decl i name a _ D).
  - intros H. rewrite H in Hl. lia.
Qed.

Lemma C10_extraction_always_succeeds_witness :
  let p := nth 2 patterns (Lit []) in
  let t := txt " ember_ctx* ctx = make(); rest" in
  let m := MatchObj (txt " ember_ctx* ctx = make();")
                    [(2, txt "ember_ctx* ctx = make();"); (1, txt " ")] in
  In p patterns
  /\ match_at p t = Some (m, txt " rest")
  /\ exists var_match,
       search name_re (group 2 m) = Some var_match
       /\ declaration (group 1 var_match) (group 2 m)
       /\ replacement m
          = group 1 m ++ group 2 m ++ [nl] ++ group 1 m
            ++ txt "UNUSED(" ++ group 1 var_match ++ txt ");"
       /\ replacement m <> group0 m.
Proof.
  split; [simpl; tauto|]. split; [reflexivity|].
  apply (C10_extraction_always_succeeds (nth 2 patterns (Lit []))
           (txt " ember_ctx* ctx = make(); rest") _ (txt " rest"));
    [simpl; tauto|reflexivity].
Defined.

(** * Further properties of the script *)

(** ** The rules only insert, and only behind semicolons *)

Lemma annotated_split u : no_hash u -> forall b c,
  annotated (u ++ b) c ->
  exists u' c', c = u' ++ c' /\ no_hash u' /\ annotated b c'.
Proof.
  unfold no_hash. induction u as [|x u IH]; intros Hu b c H.
  - now exists [], c.
  - simpl in Hu. apply andb_prop in Hu as [Hx Hu].
    inversion H as [|x' t t' H'|e t t' H' He]; subst.
    + destruct (IH Hu _ _ H') as (u' & c' & -> & Hu' & Hc).
      exists (x :: u'), c'. simpl. now rewrite Hx, Hu'.
    + destruct (IH Hu _ _ H') as (u' & c' & -> & Hu' & Hc).
      exists (";"%char :: nl :: e ++ u'), c'.
      repeat split; [simpl; now rewrite <- app_assoc| |assumption].
      simpl. now rewrite forallb_app, He, Hu'.
Qed.

Lemma annotated_trans a b :
  annotated a b -> forall c, annotated b c -> annotated a c.
Proof.
  induction 1 as [|x a b Hab IH|e a b Hab IH He]; intros c Hbc.
  - assumption.
  - inversion Hbc; subst; [apply Ann_keep|apply Ann_line]; auto.
  - assert (Hnl : forall c1, annotated (nl :: e ++ b) c1 ->
              exists e' c', c1 = nl :: e' ++ c'
                            /\ no_hash e' /\ annotated b c').
    { intros c1 H1. inversion H1 as [|x' t t' H'|]; subst.
      destruct (annotated_split e He _ _ H') as (e' & c' & -> & He' & Hc).
      now exists e', c'. }
    inversion Hbc as [|x' t t' H'|e2 t t' H' He2]; subst.
    + destruct (Hnl _ H') as (e' & c' & -> & He' & Hc).
      apply Ann_line; auto.
    + destruct (Hnl _ H') as (e' & c' & -> & He' & Hc).
      replace (e2 ++ nl :: e' ++ c') with ((e2 ++ nl :: e') ++ c')
        by (now rewrite <- app_assoc).
      apply Ann_line; auto.
      rewrite forallb_app, He2. simpl. exact He'.
Qed.

Lemma annotated_subseq a b : annotated a b -> subseq a b.
Proof.
  induction 1 as [|x a b _ IH|e a b _ IH _].
  - constructor.
  - now constructor.
  - apply Sub_keep, Sub_skip.
    induction e as [|y e IHe]; [assumption|]. now apply Sub_skip.
Qed.

Lemma subseq_refl a : subseq a a.
Proof. induction a; now constructor. Qed.

Lemma subseq_trans b c : subseq b c -> forall a, subseq a b -> subseq a c.
Proof.
  induction 1 as [b|x b c Hbc IH|x b c Hbc IH]; intros a Hab.
  - inversion Hab; subst. constructor.
  - inversion Hab; subst.
    + constructor.
    + apply Sub_keep. auto.
    + apply Sub_skip. auto.
  - apply Sub_skip. auto.
Qed.

Lemma subseq_app_head u a b : subseq a b -> subseq (u ++ a) (u ++ b).
Proof. intros H. induction u; simpl; [assumption|now constructor]. Qed.

Lemma subseq_app_skip u a b : subseq a b -> subseq a (u ++ b).
Proof. intros H. induction u; simpl; [assumption|now constructor]. Qed.

(** [replace old (old ++ extra)] only inserts. *)
Lemma replace_subseq old extra : old <> [] -> forall n t,
  length t <= n -> subseq t (replace old (old ++ extra) t).
Proof.
  intros Hold. induction n as [|n IH]; intros t Hn;
    rewrite replace_eq by assumption.
  - destruct t; [constructor|simpl in Hn; lia].
  - destruct t as [|c t]; [constructor|].
    destruct (strip_prefix old (c :: t)) as [rest|] eqn:E.
    + apply strip_prefix_Some in E. rewrite E.
      rewrite <- app_assoc. apply subseq_app_head, subseq_app_skip.
      apply IH. rewrite E, length_app in Hn.
      destruct old; [contradiction|simpl in Hn; lia].
    + apply Sub_keep, IH. simpl in Hn. lia.
Qed.

Lemma rules_annotated ps : incl ps patterns -> forall t,
  annotated t (fold_left (fun c p => sub p replacement c) ps t).
Proof.
  induction ps as [|p ps IH]; intros Hps t; simpl.
  - apply annotated_refl.
  - apply annotated_trans with (b := sub p replacement t).
    + apply (sub_annotated p) with (n := length t); [|lia].
      apply Hps. now left.
    + apply IH. intros q Hq. apply Hps. now right.
Qed.

(** X1: the seven rules together change a text only by inserting, right
    behind semicolons of the text, pieces that start with a line break
    and hold no ['#']; every character of the text stays where it was
    relative to the others. *)
Theorem X1_rules_insert_behind_semicolons (t : text) :
  annotated t (apply_rules t).
Proof. rewrite apply_rules_eq. apply rules_annotated, incl_refl. Qed.

(** X2: the whole transformation never removes or changes a character:
    the text that was read is a subsequence of the text that is written. *)
Theorem X2_input_survives (t : text) : subseq t (fix_text t).
Proof.
  unfold fix_text.
  apply subseq_trans with (b := ensure_marker_present t).
  - apply annotated_subseq. rewrite apply_rules_eq.
    apply rules_annotated, incl_refl.
  - unfold ensure_marker_present.
    destruct (contains macro_def t); cbn [negb]; [apply subseq_refl|].
    apply (replace_subseq anchor macro_block anchor_nonempty (length t)).
    lia.
Qed.

(** ** What the patterns need and what a match is *)

Lemma not_semi c :
  is_space c = true \/ is_word c = true -> in_cls NotSemi c = true.
Proof.
  destruct c as [[] [] [] [] [] [] [] []]; vm_compute; intuition congruence.
Qed.

Lemma forallb_weaken (p q : ascii -> bool) u :
  (forall c, p c = true -> q c = true) ->
  forallb p u = true -> forallb q u = true.
Proof.
  intros Hpq Hu. apply forallb_forall. intros c Hc.
  apply Hpq. revert c Hc. now apply forallb_forall.
Qed.

Lemma spaces_no_semi u : spaces u -> no_semi u.
Proof. apply forallb_weaken. intros c Hc. apply not_semi. now left. Qed.

Lemma word_no_semi u : word u -> no_semi u.
Proof. apply forallb_weaken. intros c Hc. apply not_semi. now right. Qed.

Lemma type_token_no_semi tok : type_token tok -> no_semi tok.
Proof.
  unfold no_semi.
  intros [|ws _ Hws|w _ Hw| | | |]; try reflexivity;
    rewrite !forallb_app.
  - now rewrite (spaces_no_semi _ Hws).
  - now rewrite (word_no_semi _ Hw).
Qed.

Lemma type_token_head tok :
  type_token tok -> exists c tok', tok = c :: tok' /\ is_space c = false.
Proof.
  intros [| | | | | |]; eexists _, _; (split; [reflexivity|reflexivity]).
Qed.

(** A declaration starts with a character that is not white space and
    has one semicolon, its last character. *)
Lemma declaration_shape name a :
  declaration name a ->
  stops is_space a
  /\ In "="%char a
  /\ exists body, a = body ++ [";"%char] /\ no_semi body.
Proof.
  intros [tok ws tl Htok _ Hws _ Hw [ws1 ws2 e H1 H2 _ He]].
  split; [|split].
  - destruct (type_token_head _ Htok) as (c & tok' & -> & Hc). exact Hc.
  - rewrite !in_app_iff. simpl. tauto.
  - exists (tok ++ ws ++ name ++ ws1 ++ txt "=" ++ ws2 ++ e).
    split; [now rewrite <- !app_assoc|].
    unfold no_semi. rewrite !forallb_app.
    rewrite (type_token_no_semi _ Htok), (spaces_no_semi _ Hws),
      (word_no_semi _ Hw), (spaces_no_semi _ H1), (spaces_no_semi _ H2).
    simpl. exact He.
Qed.

(** X3: a match of any of the seven patterns is the text at the scan
    position split into group 1, a non-empty run of white space, and
    group 2, which starts with a character that is not white space, ends
    with a semicolon and has no other semicolon. *)
Theorem X3_match_shape (p : regex) (t : text) (m : match_obj) (rest : text) :
  In p patterns ->
  match_at p t = Some (m, rest) ->
  t = group 1 m ++ group 2 m ++ rest
  /\ group0 m = group 1 m ++ group 2 m
  /\ group 1 m <> [] /\ spaces (group 1 m)
  /\ stops is_space (group 2 m)
  /\ exists body, group 2 m = body ++ [";"%char] /\ no_semi body.
Proof.
  intros Hp Hm.
  destruct (decl_match _ _ _ _ Hp Hm) as (i & name & a & -> & -> & Hi & Si & D).
  destruct (declaration_shape _ _ D) as (Ha & _ & Hb).
  unfold group. simpl. repeat split; assumption.
Qed.

Lemma X3_match_shape_witness :
  let p := nth 6 patterns (Lit []) in
  let t := [nl] ++ txt "  int x = f(1, 2); y" in
  let m := MatchObj ([nl] ++ txt "  int x = f(1, 2);")
                    [(2, txt "int x = f(1, 2);"); (1, [nl] ++ txt "  ")] in
  In p patterns
  /\ match_at p t = Some (m, txt " y")
  /\ t = group 1 m ++ group 2 m ++ txt " y"
  /\ group0 m = group 1 m ++ group 2 m
  /\ group 1 m <> [] /\ spaces (group 1 m)
  /\ stops is_space (group 2 m)
  /\ exists body, group 2 m = body ++ [";"%char] /\ no_semi body.
Proof.
  split; [simpl; tauto|]. split; [reflexivity|].
  apply (X3_match_shape (nth 6 patterns (Lit []))
           ([nl] ++ txt "  int x = f(1, 2); y") _ (txt " y"));
    [simpl; tauto|reflexivity].
Defined.

(** X4: where the text does not start with white space no pattern
    matches, so the scan of a rule copies that character and goes on; a
    declaration that is the first thing in the file, without
    indentation, is passed over. *)
Theorem X4_no_match_without_white_space (p : regex) (t : text) :
  In p patterns ->
  stops is_space t ->
  match_at p t = None
  /\ sub p replacement t
     = match t with
       | [] => []
       | c :: t' => c :: sub p replacement t'
       end.
Proof.
  intros Hp Ht.
  assert (E : match_at p t = None).
  { destruct (match_at p t) as [[m rest]|] eqn:E; [|reflexivity].
    destruct (decl_match _ _ _ _ Hp E) as (i & name & a & _ & -> & Hi & Si & _).
    destruct i as [|c i]; [contradiction|].
    simpl in Ht, Si. apply andb_prop in Si as [Sc _]. congruence. }
  split; [exact E|]. now rewrite (sub_decl_eq _ _ _ Hp), E.
Qed.

Lemma X4_no_match_without_white_space_witness :
  let p := nth 6 patterns (Lit []) in
  let t := txt "int x = 5;" in
  In p patterns
  /\ stops is_space t
  /\ match_at p t = None
  /\ sub p replacement t
     = "i"%char :: sub p replacement (txt "nt x = 5;").
Proof.
  split; [simpl; tauto|]. split; [reflexivity|].
  apply (X4_no_match_without_white_space (nth 6 patterns (Lit []))
           (txt "int x = 5;")); [simpl; tauto|reflexivity].
Defined.

(** X5: a text without white space, without ['='] or without [';'] is
    left as it is by the rules. *)
Theorem X5_rules_need_space_equals_semicolon (t : text) :
  forallb (fun c => negb (is_space c)) t = true
  \/ ~ In "="%char t \/ ~ In ";"%char t ->
  apply_rules t = t.
Proof.
  intros H. rewrite apply_rules_eq. apply rules_no_match.
  apply Forall_forall. intros p Hp.
  destruct (search p t) as [m|] eqn:E; [exfalso|reflexivity].
  destruct (search_sound _ _ _ E) as (pre & rest & -> & Hm).
  destruct (decl_match _ _ _ _ Hp Hm) as (i & name & a & -> & _ & Hi & Si & D).
  destruct (declaration_shape _ _ D) as (_ & Heq & body & -> & _).
  simpl group0 in *.
  destruct H as [H|[H|H]].
  - destruct i as [|c i]; [contradiction|].
    simpl in Si. apply andb_prop in Si as [Sc _].
    rewrite !forallb_app in H. simpl in H.
    rewrite Sc in H. simpl in H.
    now rewrite andb_false_r in H.
  - apply H. rewrite !in_app_iff in *. tauto.
  - apply H. rewrite !in_app_iff. simpl. tauto.
Qed.

Lemma X5_rules_need_space_equals_semicolon_witness :
  let t := txt "  int x;" ++ [nl] ++ txt "  bool b;" in
  (forallb (fun c => negb (is_space c)) t = true
   \/ ~ In "="%char t \/ ~ In ";"%char t)
  /\ apply_rules t = t.
Proof.
  assert (H : ~ In "="%char (txt "  int x;" ++ [nl] ++ txt "  bool b;")).
  { simpl. intros K.
    repeat (destruct K as [K|K]; [discriminate K|]). exact K. }
  split; [right; left; exact H|].
  apply X5_rules_need_space_equals_semicolon. right. left. exact H.
Defined.

(** ** The macro step on a text the tool has written *)

Lemma contains_eq w t :
  contains w t =
  match strip_prefix w t with
  | Some _ => true
  | None =>
      match t with
      | [] => false
      | _ :: t' => contains w t'
      end
  end.
Proof. now destruct t. Qed.

Lemma contains_app_r w a b :
  contains w b = true -> contains w (a ++ b) = true.
Proof.
  intros H. induction a as [|c a IH]; [assumption|].
  simpl app. rewrite contains_eq.
  now destruct (strip_prefix w (c :: a ++ b)).
Qed.

Lemma contains_prefix w x : contains w (w ++ x) = true.
Proof. now rewrite contains_eq, strip_prefix_app. Qed.

Lemma contains_occurrences w t :
  contains w t = false <-> occurrences w t = 0.
Proof.
  induction t as [|c t IH]; cbn [contains occurrences];
    destruct (strip_prefix w _); easy.
Qed.

Lemma rules_occurrences_hash w : no_semi w -> forall t,
  occurrences ("#"%char :: w) (apply_rules t)
  = occurrences ("#"%char :: w) t.
Proof.
  intros Hw t. apply annotated_occurrences; [exact Hw|].
  rewrite apply_rules_eq. apply rules_annotated, incl_refl.
Qed.

Lemma rules_contains_hash w : no_semi w -> forall t,
  contains ("#"%char :: w) (apply_rules t) = contains ("#"%char :: w) t.
Proof.
  intros Hw t.
  pose proof (contains_occurrences ("#"%char :: w) t) as H1.
  pose proof (contains_occurrences ("#"%char :: w) (apply_rules t)) as H2.
  rewrite (rules_occurrences_hash w Hw) in H2.
  destruct (contains _ (apply_rules t)), (contains _ t); intuition congruence.
Qed.

Lemma ensure_marker_noop u :
  contains macro_def u = true \/ contains anchor u = false ->
  ensure_marker_present u = u.
Proof.
  unfold ensure_marker_present.
  destruct (contains macro_def u); cbn [negb]; [reflexivity|].
  intros [H|H]; [discriminate|]. now apply replace_absent.
Qed.

Lemma ensure_marker_contains t :
  contains anchor t = true ->
  contains macro_def (ensure_marker_present t) = true.
Proof.
  intros Ha. unfold ensure_marker_present.
  destruct (contains macro_def t) eqn:Hm; cbn [negb]; [exact Hm|].
  destruct (find anchor t) as [i|] eqn:F.
  - rewrite (replace_find anchor anchor_with_macro anchor_nonempty _ _ F).
    apply contains_app_r. unfold anchor_with_macro, macro_block.
    rewrite <- !app_assoc. do 4 apply contains_app_r.
    change (txt "#define UNUSED(x) ((void)(x))")
      with (macro_def ++ txt " ((void)(x))").
    rewrite <- app_assoc. apply contains_prefix.
  - apply contains_find in F. congruence.
Qed.

Lemma ensure_marker_settled t :
  ensure_marker_present (fix_text t) = fix_text t.
Proof.
  apply ensure_marker_noop. unfold fix_text.
  change macro_def with ("#"%char :: txt "define UNUSED(x)").
  change anchor
    with ("#"%char :: txt "include " ++ [dq]
          ++ txt "test_ember_internal.h" ++ [dq]).
  rewrite !rules_contains_hash by reflexivity.
  change ("#"%char :: txt "define UNUSED(x)") with macro_def.
  change ("#"%char :: txt "include " ++ [dq]
          ++ txt "test_ember_internal.h" ++ [dq]) with anchor.
  destruct (contains anchor t) eqn:Ha.
  - left. now apply ensure_marker_contains.
  - right. rewrite ensure_marker_noop; [exact Ha|now right].
Qed.

(** X6: on a text the tool has produced the macro step changes nothing:
    either the macro definition is there (it was, or the first run put
    it in) or there is no anchor line; a second run is the rules alone. *)
Theorem X6_macro_step_settled (t : text) :
  ensure_marker_present (fix_text t) = fix_text t
  /\ fix_text (fix_text t) = apply_rules (fix_text t).
Proof.
  pose proof (ensure_marker_settled t) as E.
  split; [exact E|]. unfold fix_text at 1. now rewrite E.
Qed.

(** X12: the rules neither create nor destroy an occurrence of a text
    that starts with ['#'] and has no [';'], such as an include or a
    define directive. *)
Theorem X12_rules_keep_directives (w t : text) :
  no_semi w ->
  occurrences ("#"%char :: w) (apply_rules t)
  = occurrences ("#"%char :: w) t.
Proof. intros Hw. now apply rules_occurrences_hash. Qed.

Lemma X12_rules_keep_directives_witness :
  let w := txt "include <stdio.h>" in
  let t := txt "#include <stdio.h>" ++ [nl] ++ int_line in
  no_semi w
  /\ occurrences ("#"%char :: w) (apply_rules t)
     = occurrences ("#"%char :: w) t.
Proof.
  split; [reflexivity|].
  apply (X12_rules_keep_directives (txt "include <stdio.h>")).
  reflexivity.
Defined.

(** ** A declaration at the scan position *)

Lemma run_unique (p : ascii -> bool) u1 : forall u2 r1 r2,
  forallb p u1 = true -> forallb p u2 = true ->
  stops p r1 -> stops p r2 ->
  u1 ++ r1 = u2 ++ r2 -> u1 = u2 /\ r1 = r2.
Proof.
  induction u1 as [|c u1 IH]; intros [|d u2] r1 r2 H1 H2 S1 S2 E;
    simpl in *.
  - now split.
  - subst r1. apply andb_prop in H2 as [Hd _]. simpl in S1. congruence.
  - subst r2. apply andb_prop in H1 as [Hc _]. simpl in S2. congruence.
  - apply andb_prop in H1 as [_ H1]. apply andb_prop in H2 as [_ H2].
    inversion E; subst d.
    destruct (IH u2 r1 r2 H1 H2 S1 S2) as [-> ->]; [assumption|now split].
Qed.

Lemma rule_token_type i tok : rule_token i tok -> type_token tok.
Proof. intros []; now constructor. Qed.

Lemma rule_token_pattern i tok :
  rule_token i tok -> In (nth i patterns (Lit [])) patterns.
Proof. intros []; simpl; tauto. Qed.

(** The pattern of a rule accepts a declaration with one of its type
    tokens behind white space. *)
Lemma rule_matches i tok indent ws name tl :
  rule_token i tok ->
  indent <> [] -> spaces indent -> ws <> [] -> spaces ws ->
  name <> [] -> word name -> initializer tl ->
  Matches (nth i patterns (Lit [])) (indent ++ tok ++ ws ++ name ++ tl) []
          [(2, tok ++ ws ++ name ++ tl); (1, indent)].
Proof.
  intros Hi Hne Hs Hw1 Hw2 Hn1 Hn2 [ws1 ws2 e H1 H2 He1 He2].
  destruct Hi; unfold patterns, nth, L, sp1, sp0, w1, ns1;
    rewrite <- ?app_assoc;
    repeat (first [ eapply MCat | eapply MGrp | eapply MLit
                  | eapply MPlus | eapply MStar ]);
    assumption.
Qed.

Lemma declaration_head name a :
  declaration name a -> exists c a0, a = c :: a0 /\ is_space c = false.
Proof.
  intros [tok ws tl Htok _ _ _ _ _].
  destruct (type_token_head _ Htok) as (c & tok' & -> & Hc).
  now exists c, (tok' ++ ws ++ name ++ tl).
Qed.

(** One step of the scan of rule [i] at a declaration with one of its
    type tokens. *)
Lemma declaration_step (i : nat) (tok indent ws name tl rest : text) :
  rule_token i tok ->
  indent <> [] -> spaces indent ->
  ws <> [] -> spaces ws ->
  name <> [] -> word name ->
  initializer tl ->
  let p := nth i patterns (Lit []) in
  let a := tok ++ ws ++ name ++ tl in
  match_at p (indent ++ a ++ rest)
  = Some (MatchObj (indent ++ a) [(2, a); (1, indent)], rest)
  /\ sub p replacement (indent ++ a ++ rest)
     = indent ++ a ++ [nl] ++ indent ++ txt "UNUSED(" ++ name ++ txt ");"
       ++ sub p replacement rest.
Proof.
  intros Hi Hne Hs Hw1 Hw2 Hn1 Hn2 Htl p a.
  pose proof (rule_token_pattern _ _ Hi) as Hp. fold p in Hp.
  assert (D : declaration name a)
    by (constructor; eauto using rule_token_type).
  assert (E : match_at p (indent ++ a ++ rest)
              = Some (MatchObj (indent ++ a) [(2, a); (1, indent)], rest)).
  { pose proof (rule_matches i tok indent ws name tl Hi Hne Hs Hw1 Hw2
                  Hn1 Hn2 Htl) as M.
    apply match_at_complete with (t := rest) in M.
    fold p a in M. rewrite <- app_assoc in M.
    destruct (match_at p (indent ++ a ++ rest)) as [[m rest']|] eqn:E;
      [clear M|contradiction].
    destruct (decl_match _ _ _ _ Hp E)
      as (i' & name' & a' & -> & Ht & Hi' & Si' & D').
    destruct (declaration_head _ _ D) as (c & a0 & Ha & Hc).
    destruct (declaration_head _ _ D') as (c' & a0' & Ha' & Hc').
    destruct (run_unique is_space indent i' (a ++ rest) (a' ++ rest'))
      as [<- Hr]; trivial.
    { rewrite Ha. exact Hc. }
    { rewrite Ha'. exact Hc'. }
    destruct (declaration_shape _ _ D) as (_ & _ & b & Hb & Nb).
    destruct (declaration_shape _ _ D') as (_ & _ & b' & Hb' & Nb').
    rewrite Hb, Hb', <- !app_assoc in Hr.
    destruct (run_unique (in_cls NotSemi) b b'
                ([";"%char] ++ rest) ([";"%char] ++ rest'))
      as [Eb Er]; trivial; try reflexivity.
    inversion Er. subst rest'. now rewrite Hb, Hb', Eb. }
  split; [exact E|].
  rewrite (sub_decl_eq _ _ _ Hp), E.
  rewrite (replacement_decl indent name a _ D).
  now rewrite <- !app_assoc.
Qed.

(** X7: when the text at the scan position is white space followed by a
    declaration with a type token of rule [i] (token, white space, name,
    initializer up to the first semicolon), the rule matches exactly
    that, with the white space as group 1 and the declaration as group 2,
    and puts behind it a line break, group 1 again and [UNUSED(name);]
    with the declared name; the scan goes on behind the semicolon. *)
Theorem X7_declaration_is_annotated
        (i : nat) (tok indent ws name tl rest : text) :
  rule_token i tok ->
  indent <> [] -> spaces indent ->
  ws <> [] -> spaces ws ->
  name <> [] -> word name ->
  initializer tl ->
  let p := nth i patterns (Lit []) in
  let a := tok ++ ws ++ name ++ tl in
  match_at p (indent ++ a ++ rest)
  = Some (MatchObj (indent ++ a) [(2, a); (1, indent)], rest)
  /\ sub p replacement (indent ++ a ++ rest)
     = indent ++ a ++ [nl] ++ indent ++ txt "UNUSED(" ++ name ++ txt ");"
       ++ sub p replacement rest.
Proof. apply declaration_step. Qed.

Lemma X7_declaration_is_annotated_witness :
  let indent := [nl] ++ txt "    " in
  let a := txt "ember_vm*  vm_1 = ember_new();" in
  let p := nth 2 patterns (Lit []) in
  rule_token 2 (txt "ember_vm*")
  /\ spaces indent /\ spaces (txt "  ") /\ word (txt "vm_1")
  /\ initializer (txt " = ember_new();")
  /\ match_at p (indent ++ a ++ txt " return;")
     = Some (MatchObj (indent ++ a) [(2, a); (1, indent)], txt " return;")
  /\ sub p replacement (indent ++ a ++ txt " return;")
     = indent ++ a ++ [nl] ++ indent ++ txt "UNUSED(" ++ txt "vm_1"
       ++ txt ");" ++ sub p replacement (txt " return;").
Proof.
  assert (T : rule_token 2 (txt "ember_vm*"))
    by (apply (Rule_ember_ptr (txt "vm")); [discriminate|reflexivity]).
  assert (I : initializer (txt " = ember_new();"))
    by (apply (Init (txt " ") (txt " ") (txt "ember_new()"));
        [reflexivity|reflexivity|discriminate|reflexivity]).
  split; [exact T|]. split; [reflexivity|]. split; [reflexivity|].
  split; [reflexivity|]. split; [exact I|].
  apply (X7_declaration_is_annotated 2 (txt "ember_vm*")
           ([nl] ++ txt "    ") (txt "  ") (txt "vm_1")
           (txt " = ember_new();") (txt " return;"));
    [exact T|discriminate|reflexivity|discriminate|reflexivity
    |discriminate|reflexivity|exact I].
Defined.

(** ** Whole runs *)

(** X8: exit status 0 means all of it happened: there was exactly one
    argument, the file could be read, it now holds what the
    transformation makes of its old text, one confirmation line was
    printed, and the file was opened once for reading and then once for
    writing. *)
Theorem X8_exit_0 (argv : list text) (w w' : world) :
  main argv w = (Exit 0, w') ->
  exists script filename content,
    argv = [script; filename]
    /\ files w filename = Some content
    /\ files w' filename = Some (fix_text content)
    /\ stdout w' = stdout w ++ [txt "Fixed unused variables in " ++ filename]
    /\ trace w' = trace w ++ [OpenRead filename; OpenWrite filename].
Proof.
  unfold main. destruct (length argv =? 2) eqn:L; cbn [negb];
    [|discriminate].
  apply Nat.eqb_eq in L.
  destruct argv as [|script [|filename [|x argv]]]; try discriminate L.
  cbn [nth]. unfold bind, fix_all_unused_variables, rewrite_file, bind,
    read_file, lift, write_file, print.
  destruct (files w filename) as [content|] eqn:F; [|discriminate].
  intros H. inversion H; subst w'; clear H. cbn [files stdout trace].
  exists script, filename, content.
  repeat split; trivial.
  - destruct (text_eq_dec filename filename); [reflexivity|contradiction].
  - now rewrite <- app_assoc.
Qed.

Lemma X8_exit_0_witness :
  let w := World (fun _ => Some int_line) [] [] in
  let filename := txt "t.c" in
  let w' := World (fun name => if text_eq_dec name filename
                               then Some (fix_text int_line)
                               else files w name)
                  [txt "Fixed unused variables in " ++ filename]
                  [OpenRead filename; OpenWrite filename] in
  main [txt "fix.py"; filename] w = (Exit 0, w')
  /\ exists script filename' content,
       [txt "fix.py"; filename] = [script; filename']
       /\ files w filename' = Some content
       /\ files w' filename' = Some (fix_text content)
       /\ stdout w'
          = stdout w ++ [txt "Fixed unused variables in " ++ filename']
       /\ trace w' = trace w ++ [OpenRead filename'; OpenWrite filename'].
Proof.
  split; [reflexivity|].
  apply (X8_exit_0 [txt "fix.py"; txt "t.c"]
           (World (fun _ => Some int_line) [] [])).
  reflexivity.
Defined.

(** X9: with one argument that names a file that cannot be read, the
    program ends with the uncaught exception of the read: no confirmation
    line is printed, no file changes, and the file is not opened for
    writing. *)
Theorem X9_unreadable_file (script filename : text) (w : world) :
  files w filename = None ->
  main [script; filename] w
  = (Uncaught (OSError filename),
     World (files w) (stdout w) (trace w ++ [OpenRead filename])).
Proof.
  intros F. unfold main, bind, fix_all_unused_variables, rewrite_file,
    bind, read_file. cbn [length Nat.eqb negb nth]. now rewrite F.
Qed.

Lemma X9_unreadable_file_witness :
  let w := World (fun _ => None) [] [] in
  files w (txt "missing.c") = None
  /\ main [txt "fix.py"; txt "missing.c"] w
     = (Uncaught (OSError (txt "missing.c")),
        World (files w) (stdout w)
              (trace w ++ [OpenRead (txt "missing.c")])).
Proof.
  split; [reflexivity|].
  apply (X9_unreadable_file (txt "fix.py") (txt "missing.c")
           (World (fun _ => None) [] [])).
  reflexivity.
Defined.

(** ** A declaration that has its annotation *)

Lemma no_match_without_space p t :
  In p patterns -> stops is_space t -> match_at p t = None.
Proof.
  intros Hp Ht.
  destruct (match_at p t) as [[m rest]|] eqn:E; [|reflexivity].
  destruct (decl_match _ _ _ _ Hp E) as (i & name & a & _ & -> & Hi & Si & _).
  destruct i as [|c i]; [contradiction|].
  simpl in Ht, Si. apply andb_prop in Si as [Sc _]. congruence.
Qed.

(** The scan copies text without white space. *)
Lemma sub_copies_non_space p : In p patterns -> forall u rest,
  forallb (fun c => negb (is_space c)) u = true ->
  sub p replacement (u ++ rest) = u ++ sub p replacement rest.
Proof.
  intros Hp. induction u as [|c u IH]; intros rest Hu; [reflexivity|].
  simpl in Hu. apply andb_prop in Hu as [Hc Hu].
  apply negb_true_iff in Hc.
  simpl app. rewrite (sub_decl_eq _ _ _ Hp).
  rewrite (no_match_without_space p (c :: u ++ rest) Hp Hc).
  now rewrite IH.
Qed.

Lemma type_token_not_U tok x : type_token tok -> tok <> "U"%char :: x.
Proof. intros [| | | | | |]; discriminate. Qed.

(** No pattern matches white space that is followed by [UNUSED(]. *)
Lemma no_match_at_annotation p sp x :
  In p patterns -> spaces sp ->
  match_at p (sp ++ txt "UNUSED(" ++ x) = None.
Proof.
  intros Hp Hsp.
  destruct (match_at p _) as [[m rest]|] eqn:E; [exfalso|reflexivity].
  destruct (decl_match _ _ _ _ Hp E) as (i & name & a & _ & Ht & Hi & Si & D).
  destruct (declaration_head _ _ D) as (c & a0 & Ha & Hc).
  destruct (run_unique is_space sp i (txt "UNUSED(" ++ x) (a ++ rest))
    as [_ Hr]; trivial; try reflexivity.
  { rewrite Ha. exact Hc. }
  destruct D as [tok ws tl Htok _ _ _ _ _].
  destruct (type_token_head _ Htok) as (c' & tok' & Etok & _).
  apply (type_token_not_U tok tok' Htok).
  rewrite Etok in Hr |- *. simpl in Hr. now inversion Hr.
Qed.

(** The scan copies an annotation line. *)
Lemma sub_copies_annotation p indent name rest :
  In p patterns -> spaces indent -> word name ->
  sub p replacement
      ([nl] ++ indent ++ txt "UNUSED(" ++ name ++ txt ");" ++ rest)
  = [nl] ++ indent ++ txt "UNUSED(" ++ name ++ txt ");"
    ++ sub p replacement rest.
Proof.
  intros Hp Hi Hn.
  assert (Hsp : forall sp y, spaces sp ->
            sub p replacement (sp ++ txt "UNUSED(" ++ y)
            = sp ++ sub p replacement (txt "UNUSED(" ++ y)).
  { intros sp y. remember (txt "UNUSED(" ++ y) as z eqn:Ez.
    induction sp as [|c sp IH]; intros Hs; [reflexivity|].
    rewrite (sub_decl_eq _ _ _ Hp).
    pose proof (no_match_at_annotation p (c :: sp) y Hp Hs) as E.
    rewrite <- Ez in E. rewrite E.
    simpl in Hs. apply andb_prop in Hs as [_ Hs].
    simpl. now rewrite IH. }
  change ([nl] ++ indent ++ txt "UNUSED(" ++ name ++ txt ");" ++ rest)
    with ((nl :: indent) ++ txt "UNUSED(" ++ name ++ txt ");" ++ rest).
  rewrite Hsp by (simpl; exact Hi).
  replace (txt "UNUSED(" ++ name ++ txt ");" ++ rest)
    with ((txt "UNUSED(" ++ name ++ txt ");") ++ rest)
    by (now rewrite <- !app_assoc).
  rewrite (sub_copies_non_space p Hp).
  - now rewrite <- !app_assoc.
  - rewrite !forallb_app. simpl.
    rewrite andb_true_r.
    apply forallb_weaken with (p := is_word); [|exact Hn].
    intros c Hc. now rewrite (word_not_space c Hc).
Qed.

(** C2, amended: the tool does not look for annotations.  Every match a
    rule finds gets its annotation line, whatever follows the match; in
    particular, when the scan of a rule stands at white space followed by
    a declaration of the rule's type that already has its annotation line
    behind it, the line is inserted once more and the text then holds it
    twice.  A run never shortens the text, and it leaves a text as it is
    exactly when the macro step changes nothing and no pattern matches
    anywhere in it. *)
Theorem C2_annotated_again
        (t : text) (i : nat) (tok indent ws name tl rest : text) :
  rule_token i tok ->
  indent <> [] -> spaces indent ->
  ws <> [] -> spaces ws ->
  name <> [] -> word name ->
  initializer tl ->
  let p := nth i patterns (Lit []) in
  let a := tok ++ ws ++ name ++ tl in
  let annotation := [nl] ++ indent ++ txt "UNUSED(" ++ name ++ txt ");" in
  sub p replacement (indent ++ a ++ annotation ++ rest)
  = indent ++ a ++ annotation ++ annotation ++ sub p replacement rest
  /\ (forall q u m r,
        In q patterns -> match_at q u = Some (m, r) ->
        exists declared,
          declaration declared (group 2 m)
          /\ sub q replacement u
             = group0 m ++ [nl] ++ group 1 m
               ++ txt "UNUSED(" ++ declared ++ txt ");"
               ++ sub q replacement r)
  /\ length t <= length (fix_text t)
  /\ (fix_text t = t <->
      ensure_marker_present t = t
      /\ Forall (fun p => search p t = None) patterns).
Proof.
  intros Hi Hne Hs Hw1 Hw2 Hn1 Hn2 Htl p a annotation.
  pose proof (rule_token_pattern _ _ Hi) as Hp. fold p in Hp.
  split; [|split].
  - destruct (declaration_step i tok indent ws name tl (annotation ++ rest)
                Hi Hne Hs Hw1 Hw2 Hn1 Hn2 Htl) as [_ E].
    fold p a in E. rewrite E.
    assert (E2 : sub p replacement (annotation ++ rest)
                 = annotation ++ sub p replacement rest).
    { unfold annotation. rewrite <- !app_assoc.
      exact (sub_copies_annotation p indent name rest Hp Hs Hn2). }
    rewrite E2. unfold annotation. now rewrite <- !app_assoc.
  - intros q u m r Hq Hm.
    destruct (decl_match _ _ _ _ Hq Hm) as (j & n & b & -> & _ & _ & _ & D).
    exists n. split; [exact D|].
    rewrite (sub_decl_eq _ _ _ Hq), Hm, (replacement_decl j n b _ D).
    unfold group. cbn [captures lookup group0 Nat.eqb].
    now rewrite <- !app_assoc.
  - unfold fix_text. rewrite apply_rules_eq.
    destruct (ensure_marker_length t) as [L1 L2].
    destruct (rules_length patterns (incl_refl _) (ensure_marker_present t))
      as [L3 L4]. cbv zeta in L3, L4.
    split; [lia|]. split.
    + intros H.
      assert (E : ensure_marker_present t = t).
      { apply L2. apply (f_equal (@length ascii)) in H. lia. }
      split; [assumption|]. rewrite E in *.
      apply L4. now rewrite H.
    + intros [E F]. rewrite E. now apply rules_no_match.
Qed.

Lemma C2_annotated_again_witness :
  let p := nth 6 patterns (Lit []) in
  let annotation := [nl] ++ txt "    UNUSED(x);" in
  rule_token 6 (txt "int")
  /\ spaces (txt "    ") /\ spaces (txt " ") /\ word (txt "x")
  /\ initializer (txt " = 5;")
  /\ sub p replacement int_annotated
     = int_line ++ annotation ++ annotation.
Proof.
  assert (I : initializer (txt " = 5;"))
    by (apply (Init (txt " ") (txt " ") (txt "5"));
        [reflexivity|reflexivity|discriminate|reflexivity]).
  split; [constructor|]. split; [reflexivity|]. split; [reflexivity|].
  split; [reflexivity|]. split; [exact I|].
  destruct (C2_annotated_again int_annotated 6 (txt "int") (txt "    ")
              (txt " ") (txt "x") (txt " = 5;") [])
    as [H _];
    [constructor|discriminate|reflexivity|discriminate|reflexivity
    |discriminate|reflexivity|exact I|].
  exact H.
Defined.

(** ** Whole runs on the disk *)


(** X10: however the program is called and however it ends (also when
    the write fails), a file of the disk other than the one the argument
    names holds afterwards what it held before; names keep their files. *)
Theorem X10_other_files_untouched
        (argv : list text) (d : Disk.disk) (id : nat) :
  id <> Disk.file_of d (nth 1 argv []) ->
  Disk.content (snd (Disk.main argv d)) id = Disk.content d id
  /\ Disk.file_of (snd (Disk.main argv d)) = Disk.file_of d.
Proof.
  intros Hn. apply Nat.eqb_neq in Hn.
  unfold Disk.main. destruct (negb (length argv =? 2));
    [now split|].
  unfold Disk.bind, Disk.fix_all_unused_variables, Disk.bind,
    Disk.read_file, Disk.write_file, Disk.print, Disk.store.
  destruct (Disk.content d (Disk.file_of d (nth 1 argv [])));
    [|now split].
  cbn [Disk.file_of Disk.content Disk.on_write].
  destruct (Disk.on_write d _ _);
    cbn [snd Disk.file_of Disk.content]; rewrite ?Hn; now split.
Qed.

Lemma X10_other_files_untouched_witness :
  let d := Disk.MkDisk (fun name => if text_eq_dec name (txt "other.c")
                                    then 1 else 0)
                       (fun _ => Some int_line)
                       (fun _ _ => Disk.Broken None) [] [] in
  let argv := [txt "fix.py"; txt "./t.c"] in
  Disk.file_of d (txt "t.c") = Disk.file_of d (txt "./t.c")
  /\ 1 <> Disk.file_of d (nth 1 argv [])
  /\ Disk.content (snd (Disk.main argv d)) 1 = Disk.content d 1
  /\ Disk.file_of (snd (Disk.main argv d)) = Disk.file_of d.
Proof.
  split; [reflexivity|]. split; [discriminate|].
  apply (X10_other_files_untouched [txt "fix.py"; txt "./t.c"]).
  discriminate.
Defined.



(** Where the write succeeds, a run on the disk is the run of [IO.main]
    on the view of the disk by names, for every name that is the
    argument or names another file than the argument does. *)
Lemma disk_agrees_with_io (argv : list text) (d : Disk.disk) :
  let f := nth 1 argv [] in
  (forall old, Disk.content d (Disk.file_of d f) = Some old ->
               Disk.on_write d (Disk.file_of d f) (fix_text old)
               = Disk.Written) ->
  let d' := snd (Disk.main argv d) in
  let w' := snd (main argv (Disk.by_name d)) in
  fst (Disk.main argv d) = fst (main argv (Disk.by_name d))
  /\ Disk.printed d' = stdout w'
  /\ Disk.opened d' = trace w'
  /\ forall name,
       (Disk.file_of d name = Disk.file_of d f -> name = f) ->
       Disk.content d' (Disk.file_of d' name) = files w' name.
Proof.
  intros f W. cbv zeta.
  unfold Disk.main, main. fold f.
  destruct (negb (Datatypes.length argv =? 2)) eqn:L.
  { unfold Disk.print, print, Disk.by_name. cbn. auto. }
  unfold Disk.bind, Disk.fix_all_unused_variables, Disk.bind,
    Disk.read_file, Disk.write_file, Disk.print, Disk.store,
    bind, fix_all_unused_variables, rewrite_file, bind, read_file, lift,
    write_file, print, Disk.by_name.
  cbn [files stdout trace].
  destruct (Disk.content d (Disk.file_of d f)) as [old|] eqn:R.
  - cbn [Disk.file_of Disk.content Disk.on_write Disk.printed Disk.opened].
    rewrite (W old eq_refl).
    cbn [fst snd files stdout trace Disk.file_of Disk.content Disk.printed
         Disk.opened].
    repeat split.
    intros name Hname.
    destruct (text_eq_dec name f) as [->|Hne].
    + now rewrite Nat.eqb_refl.
    + destruct (Nat.eqb_spec (Disk.file_of d name) (Disk.file_of d f))
        as [E|E]; [now apply Hname in E|reflexivity].
  - cbn. auto.
Qed.
